(** * A shallow embedding of the yelp client's query layer

    The development follows the Go package: the helper routines of the
    utility file (percent-encoding, nonce, coordinate validation), the
    [SearchQuery] container with its [sort.Interface] methods, the eleven
    [SearchQuerier] implementations of search.go, and [oauth.Sign].

    Go strings are byte strings and are modelled by [string] (a list of
    8-bit [ascii]); [int] and [rune] are modelled by [Z]; [float64] by the
    kernel's binary64 [float]; the [uint8] bit mask by [Z] with [Z.land]
    and [Z.lor]. *)

From Stdlib Require Import ZArith List Ascii String Floats Lia.
From Stdlib Require Import DecimalString DecimalZ.
From Stdlib Require Import Sorting.Permutation Sorting.Sorted.
From stdpp Require Import base list sorting.

Local Open Scope string_scope.
Local Open Scope Z_scope.

(** ** Bytes, runes and strings *)

(** The numeric value of a byte. *)
Definition ord (c : ascii) : Z := Z.of_N (N_of_ascii c).

(** Go's conversion [byte(v)] of an integer: the low-order eight bits. *)
Definition byte (v : Z) : ascii := ascii_of_N (Z.to_N (v mod 256)).

(** [s[i]] on a string; an index out of range panics in Go, and [None]
    stands for the panic. *)
Definition index (s : string) (i : Z) : option ascii :=
  if i <? 0 then None else String.get (Z.to_nat i) s.

(** [bytes.Buffer.WriteByte] and [WriteString] on a buffer held as a string. *)
Definition WriteByte (buffer : string) (c : ascii) : string :=
  buffer ++ String c EmptyString.

Definition WriteString (buffer : string) (s : string) : string :=
  buffer ++ s.

(** *** Ranging over a string

    [for _, v := range source] decodes one UTF-8 sequence per iteration.
    A byte below 0x80 is its own rune; otherwise the runtime's [decoderune]
    is consulted, which returns the rune and the number of bytes consumed,
    or [runeError] and one byte on a malformed sequence. *)

Definition runeError : Z := 0xFFFD.
Definition runeSelf : Z := 0x80.
Definition maxRune : Z := 0x10FFFF.
Definition surrogateMin : Z := 0xD800.
Definition surrogateMax : Z := 0xDFFF.

Definition t2 : Z := 0xC0.
Definition t3 : Z := 0xE0.
Definition t4 : Z := 0xF0.
Definition t5 : Z := 0xF8.
Definition maskx : Z := 0x3F.
Definition mask2 : Z := 0x1F.
Definition mask3 : Z := 0x0F.
Definition mask4 : Z := 0x07.
Definition rune1Max : Z := 0x7F.
Definition rune2Max : Z := 0x7FF.
Definition rune3Max : Z := 0xFFFF.
Definition locb : Z := 0x80.
Definition hicb : Z := 0xBF.

(** A continuation byte. *)
Definition cont (b : Z) : bool := (locb <=? b) && (b <=? hicb).

(** [decoderune] on the bytes at the current position: [s0] is the byte
    there, [o1], [o2], [o3] the following ones when the string is long
    enough. The result is the rune and the width of its encoding. *)
Definition decoderune_bytes (s0 : Z) (o1 o2 o3 : option Z) : Z * nat :=
  if (t2 <=? s0) && (s0 <? t3) then
    match o1 with
    | Some s1 =>
        if cont s1 then
          let r := Z.lor (Z.shiftl (Z.land s0 mask2) 6) (Z.land s1 maskx) in
          if rune1Max <? r then (r, 2%nat) else (runeError, 1%nat)
        else (runeError, 1%nat)
    | None => (runeError, 1%nat)
    end
  else if (t3 <=? s0) && (s0 <? t4) then
    match o1, o2 with
    | Some s1, Some s2 =>
        if cont s1 && cont s2 then
          let r := Z.lor (Z.lor (Z.shiftl (Z.land s0 mask3) 12)
                                (Z.shiftl (Z.land s1 maskx) 6))
                         (Z.land s2 maskx) in
          if (rune2Max <? r) && negb ((surrogateMin <=? r) && (r <=? surrogateMax))
          then (r, 3%nat) else (runeError, 1%nat)
        else (runeError, 1%nat)
    | _, _ => (runeError, 1%nat)
    end
  else if (t4 <=? s0) && (s0 <? t5) then
    match o1, o2, o3 with
    | Some s1, Some s2, Some s3 =>
        if cont s1 && cont s2 && cont s3 then
          let r := Z.lor (Z.lor (Z.lor (Z.shiftl (Z.land s0 mask4) 18)
                                       (Z.shiftl (Z.land s1 maskx) 12))
                                (Z.shiftl (Z.land s2 maskx) 6))
                         (Z.land s3 maskx) in
          if (rune3Max <? r) && (r <=? maxRune)
          then (r, 4%nat) else (runeError, 1%nat)
        else (runeError, 1%nat)
    | _, _, _ => (runeError, 1%nat)
    end
  else (runeError, 1%nat).

(** The first rune of a non-empty string whose first byte is [c0] and whose
    remainder is [t0]. *)
Definition decoderune (c0 : ascii) (t0 : string) : Z * nat :=
  if ord c0 <? runeSelf then (ord c0, 1%nat)
  else decoderune_bytes (ord c0)
         (option_map ord (String.get 0 t0))
         (option_map ord (String.get 1 t0))
         (option_map ord (String.get 2 t0)).

(** The runes a [range] loop over [s] yields, in order. *)
Fixpoint range_runes (s : string) : list Z :=
  match s with
  | EmptyString => []
  | String c0 t0 =>
      let (r, w) := decoderune c0 t0 in
      r :: match w, t0 with
           | 2%nat, String _ t1 => range_runes t1
           | 3%nat, String _ (String _ t2) => range_runes t2
           | 4%nat, String _ (String _ (String _ t3)) => range_runes t3
           | _, _ => range_runes t0
           end
  end.

(** ** The utility file: percent-encoding *)

Definition hexMap : string := "0123456789ABCDEF".

Definition shouldPercentEncode (c : ascii) : bool :=
  negb (((ord "0" <=? ord c) && (ord c <=? ord "9"))
        || ((ord "A" <=? ord c) && (ord c <=? ord "Z"))
        || ((ord "a" <=? ord c) && (ord c <=? ord "z"))
        || Ascii.eqb c "-" || Ascii.eqb c "." || Ascii.eqb c "_"
        || Ascii.eqb c "~").

(** [hexMap[i]]; the indices the encoder uses are below 16, so the panic of
    an index out of range (rendered here as the NUL byte) is never met. *)
Definition hexMap_at (i : Z) : ascii :=
  match index hexMap i with
  | Some c => c
  | None => "000"%char
  end.

(** One iteration of the loop of [percentEncode] on the rune [v]. *)
Definition percentEncode_body (buffer : string) (v : Z) : string :=
  let val := byte v in
  if shouldPercentEncode val then
    if Ascii.eqb val "," then
      WriteString buffer "%252C"
    else
      let buffer := WriteByte buffer "%" in
      let buffer := WriteByte buffer
                      (hexMap_at (Z.land (Z.shiftr (ord val) 4) 0x0F)) in
      WriteByte buffer (hexMap_at (Z.land (ord val) 0x0F))
  else
    WriteByte buffer val.

Definition percentEncode (source : string) : string :=
  fold_left percentEncode_body (range_runes source) "".

(** ** Go library routines the package calls

    The decimal rendering of an [int] ([strconv.Itoa], [strconv.FormatInt]
    in base 10, and the verbs [%d] and [%v] of [fmt] on an integer). *)
Definition Itoa (n : Z) : string := NilEmpty.string_of_int (Z.to_int n).

(** [strings.Replace(s, " ", "+", -1)]: every space byte becomes a plus. *)
Fixpoint Replace_space_plus (s : string) : string :=
  match s with
  | EmptyString => EmptyString
  | String c rest =>
      String (if Ascii.eqb c " " then "+"%char else c) (Replace_space_plus rest)
  end.

(** [strings.Join]. *)
Definition Join (elems : list string) (sep : string) : string :=
  String.concat sep elems.

(** The rendering of [float64] values is left to Go's library: the package
    only passes the resulting strings on. *)
Class FloatFormat := {
  (** [strconv.FormatFloat(f, fmt, prec, bitSize)] *)
  FormatFloat : float -> ascii -> Z -> Z -> string;
  (** the text [fmt] prints for a [float64] operand under a verb *)
  fmtFloat : ascii -> float -> string
}.

(** The hash and the text encoding used for signing, and the process-wide
    pseudo-random source of [math/rand], whose [Int] is non-negative. *)
Class Crypto := {
  hmac_sha1 : string -> string -> string;
  base64_EncodeToString : string -> string
}.

Class RandSource := {
  Rand : Type;
  rand_Int : Rand -> N * Rand
}.

(** ** The utility file: nonce and coordinate validation *)

Definition nonceCharacters : string :=
  "abcdefghijklmnopqrstuvwxyzABCDEFGHIJKLMNOPQRSTUVWXYZ0123456789".
Definition nonceLength : Z := Z.of_nat (String.length nonceCharacters).

Section Nonce.
Context `{RandSource}.

(** [count] iterations of the loop of [nonce]. *)
Fixpoint nonce_loop (count : nat) (result : string) (rs : Rand)
  : string * Rand :=
  match count with
  | O => (result, rs)
  | S count' =>
      let (r, rs) := rand_Int rs in
      let c := match index nonceCharacters (Z.rem (Z.of_N r) nonceLength) with
               | Some c => c
               | None => "000"%char
               end in
      nonce_loop count' (WriteByte result c) rs
  end.

Definition nonce (length : Z) (rs : Rand) : string * Rand :=
  nonce_loop (Z.to_nat length) "" rs.
End Nonce.

Definition validLatitudeLongitude (latitude longitude : float) : bool :=
  negb (PrimFloat.ltb latitude (-90)%float
        || PrimFloat.ltb 90%float latitude
        || PrimFloat.ltb longitude (-180)%float
        || PrimFloat.ltb 180%float longitude).

(** ** search.go: the query container *)

Definition searchIdentifierTerm : string := "term".
Definition searchIdentifierLimit : string := "limit".
Definition searchIdentifierOffset : string := "offset".
Definition searchIdentifierSort : string := "sort".
Definition searchIdentifierCategory : string := "category_filter".
Definition searchIdentifierRadius : string := "radius_filter".
Definition searchIdentifierDeals : string := "deals_filter".
Definition searchIdentifierLocation : string := "location".
Definition searchIdentifierCoordinates : string := "ll".
Definition searchIdentifierCoordinatesHint : string := "cll".
Definition searchIdentifierBounds : string := "bounds".

(** [searchBitMask] is a [uint8]; the constants are [1 << iota]. *)
Definition searchBitMaskTerm : Z := Z.shiftl 1 0.
Definition searchBitMaskLimit : Z := Z.shiftl 1 1.
Definition searchBitMaskOffset : Z := Z.shiftl 1 2.
Definition searchBitMaskSort : Z := Z.shiftl 1 3.
Definition searchBitMaskCategory : Z := Z.shiftl 1 4.
Definition searchBitMaskRadius : Z := Z.shiftl 1 5.
Definition searchBitMaskDeals : Z := Z.shiftl 1 6.
Definition searchBitMaskLocation : Z := Z.shiftl 1 7.

Record searchQueryElement := {
  Name : string;
  Value : string
}.

Record SearchQuery := {
  queries : list searchQueryElement;
  mask : Z
}.

(** The zero value [var q SearchQuery]. *)
Definition fresh : SearchQuery := {| queries := []; mask := 0 |}.

Definition Append (q : SearchQuery) (name value : string) : SearchQuery :=
  {| queries := (queries q ++ [{| Name := name; Value := value |}])%list;
     mask := mask q |}.

(** [sq.mask |= bit] *)
Definition set_mask (q : SearchQuery) (bit : Z) : SearchQuery :=
  {| queries := queries q; mask := Z.lor (mask q) bit |}.

Definition Len (q : SearchQuery) : nat := length (queries q).

(** [Less] and [Swap] index the slice; [None] is the panic of an index out
    of range. *)
Definition Less (q : SearchQuery) (i j : nat) : option bool :=
  match queries q !! i, queries q !! j with
  | Some x, Some y => Some (String.ltb (Name x) (Name y))
  | _, _ => None
  end.

Definition Swap (q : SearchQuery) (i j : nat) : option SearchQuery :=
  match queries q !! i, queries q !! j with
  | Some x, Some y =>
      Some {| queries := <[j := x]> (<[i := y]> (queries q)); mask := mask q |}
  | _, _ => None
  end.

(** What any caller of the interface can bring about: [q'] is reached from
    [q] by a series of [Swap] calls, none of which panics. *)
Inductive swapped : SearchQuery -> SearchQuery -> Prop :=
| swapped_refl q : swapped q q
| swapped_step q i j q1 q2 :
    Swap q i j = Some q1 -> swapped q1 q2 -> swapped q q2.

(** No element is [Less] than the one before it, which is what
    [sort.IsSorted] tests:
<<
    for i := n - 1; i > 0; i-- { if data.Less(i, i-1) { return false } }
>> *)
Definition in_order (q : SearchQuery) : Prop :=
  forall i, Less q (S i) i <> Some true.

(** [sort.Sort] is Go's library routine, and its source is not part of the
    package. It reaches the data through [Len], [Less] and [Swap] only. The
    calls it makes depend on the release of the library and on the length
    of the data (an insertion sort on short data, a quicksort variant with a
    heap sort behind it on longer data), and elements whose names are equal
    may come out in any order. The routine is therefore a parameter, with
    what its documentation promises: it returns ([None] is a panic), it
    changes the data by calls of [Swap], and it leaves the data in ascending
    order as [Less] determines it. *)
Class SortRoutine := {
  sort_Sort : SearchQuery -> option SearchQuery;
  sort_Sort_contract :
    forall q, exists q', sort_Sort q = Some q' /\ swapped q q' /\ in_order q'
}.

(** [func (q *SearchQuery) Sort() { sort.Sort(q) }] *)
Definition Sort `{SortRoutine} (q : SearchQuery) : option SearchQuery :=
  sort_Sort q.

(** One routine of that kind, used to run the model on examples: the
    insertion sort of the library,
<<
    for i := a + 1; i < b; i++ {
      for j := i; j > a && data.Less(j, j-1); j-- { data.Swap(j, j-1) }
    }
>> *)
Fixpoint insertionSort_inner (q : SearchQuery) (a j : nat)
  : option SearchQuery :=
  match j with
  | O => Some q
  | S j' =>
      if (a <? j)%nat then
        match Less q j j' with
        | Some true =>
            match Swap q j j' with
            | Some q' => insertionSort_inner q' a j'
            | None => None
            end
        | Some false => Some q
        | None => None
        end
      else Some q
  end.

(** The outer loop, from [i] for [n] iterations. *)
Fixpoint insertionSort_outer (q : SearchQuery) (a i n : nat)
  : option SearchQuery :=
  match n with
  | O => Some q
  | S n' =>
      match insertionSort_inner q a i with
      | Some q' => insertionSort_outer q' a (S i) n'
      | None => None
      end
  end.

Definition insertionSort (q : SearchQuery) (a b : nat) : option SearchQuery :=
  insertionSort_outer q a (S a) (b - S a).

(** The loop of [String] from index 1 on. *)
Fixpoint String_loop (buffer : string) (rest : list searchQueryElement)
  : string :=
  match rest with
  | [] => buffer
  | e :: rest' =>
      let buffer := WriteString buffer "&" in
      let buffer := WriteString buffer (Name e) in
      let buffer := WriteString buffer "=" in
      let buffer := WriteString buffer (Value e) in
      String_loop buffer rest'
  end.

Definition SearchQuery_String (q : SearchQuery) : string :=
  match queries q with
  | [] => ""
  | e0 :: rest =>
      let buffer := WriteString "" (Name e0) in
      let buffer := WriteString buffer "=" in
      let buffer := WriteString buffer (Value e0) in
      String_loop buffer rest
  end.

(** ** search.go: errors and search options *)

(** Modelled from the spec: the declaration of the [Error] struct is not
    among the sources. Section 7 says an error identifies the offending
    option and carries a human-readable reason, and search.go builds every
    [Error] from exactly these two strings, in this order. *)
Record Error := {
  Source : string;
  Message : string
}.

(** [sq.mask&bit != 0] *)
Definition mask_set (sq : SearchQuery) (bit : Z) : bool :=
  negb (Z.land (mask sq) bit =? 0).

Definition SearchSortBestMatched : Z := 0.
Definition SearchSortDistance : Z := 1.
Definition SearchSortHighestRated : Z := 2.

Definition SearchCategoryActive : Z := 0.
Definition SearchCategoryArtsEntertainment : Z := 1.
Definition SearchCategoryAutomotive : Z := 2.
Definition SearchCategoryBeautySpas : Z := 3.
Definition SearchCategoryGolf : Z := 4.
Definition SearchCategoryNightlife : Z := 5.
Definition SearchCategoryBars : Z := 6.
Definition SearchCategoryRestaurants : Z := 7.
Definition SearchCategoryTotal : Z := 8.

Definition searchCategoryNames : list string :=
  ["active"; "arts"; "auto"; "beautysvc"; "golf"; "nightlife"; "bars";
   "restaurants"].

(** The implementations of the [SearchQuerier] interface. *)
Inductive SearchQuerier :=
| SearchCoordinates (Latitude Longitude : float)
| SearchLocation (sl : string)
| SearchLocationCoordinates (Location : string) (Latitude Longitude : float)
| SearchBounds (SWLatitude SWLongitude NELatitude NELongitude : float)
| SearchTerms (st : list string)
| SearchLimit (sl : Z)
| SearchOffset (so : Z)
| SearchSort (ss : Z)
| SearchCategories (sc : list Z)
| SearchRadius (sr : Z)
| SearchDeals (sd : bool).

(** Each [Query] method takes the container behind the pointer [sq] and
    returns the container as the call leaves it, with the error ([None] is
    [nil]). *)
Definition SearchLocation_Query (sl : string) (sq : SearchQuery)
  : SearchQuery * option Error :=
  if mask_set sq searchBitMaskLocation then
    (sq, Some {| Source := "SearchLocation";
                 Message := "Attempting to set location for a second time" |})
  else
    let sq := Append sq searchIdentifierLocation (Replace_space_plus sl) in
    let sq := set_mask sq searchBitMaskLocation in
    (sq, None).

(** The loop [for i, v := range st { st[i] = ... }] of [SearchTerms.Query],
    at index [i] with [n] iterations left. *)
Fixpoint SearchTerms_loop (st : list string) (i n : nat) : list string :=
  match n with
  | O => st
  | S n' =>
      match st !! i with
      | Some v => SearchTerms_loop (<[i := Replace_space_plus v]> st) (S i) n'
      | None => st
      end
  end.

(** [SearchTerms] is a slice: the receiver [st] shares its elements with the
    caller's value, so the method also returns the elements as the call
    leaves them. *)
Definition SearchTerms_Query (st : list string) (sq : SearchQuery)
  : list string * SearchQuery * option Error :=
  if mask_set sq searchBitMaskTerm then
    (st, sq, Some {| Source := "SearchTerms";
                     Message := "Attempting to set search terms a second time" |})
  else
    let st := SearchTerms_loop st 0 (length st) in
    let sq := Append sq searchIdentifierTerm (Join st ",") in
    let sq := set_mask sq searchBitMaskTerm in
    (st, sq, None).

Definition SearchLimit_Query (sl : Z) (sq : SearchQuery)
  : SearchQuery * option Error :=
  if mask_set sq searchBitMaskLimit then
    (sq, Some {| Source := "SearchLimit";
                 Message := "Attempting to set search limit a second time" |})
  else if (sl <? 0) || (sl >? 20) then
    (sq, Some {| Source := "SearchLimit";
                 Message := "Invalid search limit: " ++ Itoa sl |})
  else
    let sq := Append sq searchIdentifierLimit (Itoa sl) in
    let sq := set_mask sq searchBitMaskLimit in
    (sq, None).

Definition SearchOffset_Query (so : Z) (sq : SearchQuery)
  : SearchQuery * option Error :=
  if mask_set sq searchBitMaskOffset then
    (sq, Some {| Source := "SearchOffset";
                 Message := "Attempting to set search offset a second time" |})
  else if so <? 0 then
    (sq, Some {| Source := "SearchOffset";
                 Message := "Invalid search offsets: " ++ Itoa so |})
  else
    let sq := Append sq searchIdentifierOffset (Itoa so) in
    let sq := set_mask sq searchBitMaskOffset in
    (sq, None).

Definition SearchSort_Query (ss : Z) (sq : SearchQuery)
  : SearchQuery * option Error :=
  if mask_set sq searchBitMaskSort then
    (sq, Some {| Source := "SearchSort";
                 Message := "Attempting to set sorting method a second time" |})
  else if (ss <? SearchSortBestMatched) || (ss >? SearchSortHighestRated) then
    (sq, Some {| Source := "SearchSort";
                 Message := "Invalid sorting method: " ++ Itoa ss |})
  else
    let sq := Append sq searchIdentifierSort (Itoa ss) in
    let sq := set_mask sq searchBitMaskSort in
    (sq, None).

(** The loop of [SearchCategories.Query] over the categories from index [i]
    on: the error of an invalid category, or the buffer. *)
Fixpoint SearchCategories_loop (sc : list Z) (i : nat) (buffer : string)
  : Error + string :=
  match sc with
  | [] => inr buffer
  | v :: rest =>
      let buffer := if negb (i =? 0)%nat then WriteString buffer ","
                    else buffer in
      if (v <? SearchCategoryActive) || (v >=? SearchCategoryTotal) then
        inl {| Source := "SearchCategory";
               Message := "Invalid search category specified" |}
      else
        SearchCategories_loop rest (S i)
          (WriteString buffer (nth (Z.to_nat v) searchCategoryNames ""))
  end.

Definition SearchCategories_Query (sc : list Z) (sq : SearchQuery)
  : SearchQuery * option Error :=
  if mask_set sq searchBitMaskCategory then
    (sq, Some {| Source := "SearchCategories";
                 Message := "Attempting to set the category filter a second time" |})
  else
    let length := length sc in
    if (length =? 0)%nat then
      (sq, Some {| Source := "SearchCategories";
                   Message := "No search categories are specified" |})
    else
      match SearchCategories_loop sc 0 "" with
      | inl e => (sq, Some e)
      | inr buffer =>
          let sq := Append sq searchIdentifierCategory buffer in
          let sq := set_mask sq searchBitMaskCategory in
          (sq, None)
      end.

Definition SearchRadius_Query (sr : Z) (sq : SearchQuery)
  : SearchQuery * option Error :=
  if mask_set sq searchBitMaskRadius then
    (sq, Some {| Source := "SearchRadius";
                 Message := "Attempting to set the radius filter a second time" |})
  else if (sr <? 0) || (sr >? 40000) then
    (sq, Some {| Source := "SearchRadius";
                 Message := "Invalid radius specified: " ++ Itoa sr |})
  else
    let sq := Append sq searchIdentifierRadius (Itoa sr) in
    let sq := set_mask sq searchBitMaskRadius in
    (sq, None).

Definition SearchDeals_Query (sd : bool) (sq : SearchQuery)
  : SearchQuery * option Error :=
  if mask_set sq searchBitMaskDeals then
    (sq, Some {| Source := "SearchDeals";
                 Message := "Attempting to set the deals search option a second time" |})
  else
    let sq := if sd then Append sq searchIdentifierDeals "true"
              else Append sq searchIdentifierDeals "false" in
    let sq := set_mask sq searchBitMaskDeals in
    (sq, None).

Section FloatOptions.
Context `{FloatFormat}.

(** [strconv.FormatFloat(f, 'f', -1, 64)] *)
Definition shortest (f : float) : string := FormatFloat f "f" (-1) 64.

Definition SearchCoordinates_Query (Latitude Longitude : float)
  (sq : SearchQuery) : SearchQuery * option Error :=
  if mask_set sq searchBitMaskLocation then
    (sq, Some {| Source := "SearchCoordinates";
                 Message := "Attempting to set location for a second time" |})
  else if Bool.eqb (validLatitudeLongitude Latitude Longitude) false then
    (sq, Some {| Source := "SearchCoordinates";
                 Message := "Invalid latitude and/or longitude: "
                            ++ fmtFloat "f" Latitude ++ ", "
                            ++ fmtFloat "f" Longitude |})
  else
    let buffer := WriteString "" (shortest Latitude) in
    let buffer := WriteString buffer "," in
    let buffer := WriteString buffer (shortest Longitude) in
    let sq := Append sq searchIdentifierCoordinates buffer in
    let sq := set_mask sq searchBitMaskLocation in
    (sq, None).

(** The format of the error has [$f] where a second verb was meant, so
    [fmt] prints the text as it stands and reports the unused operand. *)
Definition SearchLocationCoordinates_Query (Location : string)
  (Latitude Longitude : float) (sq : SearchQuery)
  : SearchQuery * option Error :=
  if mask_set sq searchBitMaskLocation then
    (sq, Some {| Source := "SearchLocationCoordinates";
                 Message := "Attempting to set location for a second time" |})
  else
    let sq := Append sq searchIdentifierLocation
                (Replace_space_plus Location) in
    if Bool.eqb (validLatitudeLongitude Latitude Longitude) false then
      (sq, Some {| Source := "SearchLocationCoordinates";
                   Message := "Invalid latitude and/or longitude: "
                              ++ fmtFloat "f" Latitude ++ ", $f"
                              ++ "%!(EXTRA float64="
                              ++ fmtFloat "v" Longitude ++ ")" |})
    else
      let buffer := WriteString "" (shortest Latitude) in
      let buffer := WriteString buffer "," in
      let buffer := WriteString buffer (shortest Longitude) in
      let sq := Append sq searchIdentifierCoordinatesHint buffer in
      let sq := set_mask sq searchBitMaskLocation in
      (sq, None).

Definition SearchBounds_Query
  (SWLatitude SWLongitude NELatitude NELongitude : float)
  (sq : SearchQuery) : SearchQuery * option Error :=
  if mask_set sq searchBitMaskLocation then
    (sq, Some {| Source := "SearchBounds";
                 Message := "Attempting to set location for a second time" |})
  else if Bool.eqb (validLatitudeLongitude SWLatitude SWLongitude) false then
    (sq, Some {| Source := "SearchBounds";
                 Message := "Invalid southwest latitude and/or longitude: "
                            ++ fmtFloat "f" SWLatitude ++ ", "
                            ++ fmtFloat "f" SWLongitude |})
  else if Bool.eqb (validLatitudeLongitude NELatitude NELongitude) false then
    (sq, Some {| Source := "SearchBounds";
                 Message := "Invalid northeast latitude and/or longitude: "
                            ++ fmtFloat "f" NELatitude ++ ", "
                            ++ fmtFloat "f" NELongitude |})
  else
    let buffer := WriteString "" (shortest SWLatitude) in
    let buffer := WriteString buffer "," in
    let buffer := WriteString buffer (shortest SWLongitude) in
    let buffer := WriteString buffer "|" in
    let buffer := WriteString buffer (shortest NELatitude) in
    let buffer := WriteString buffer "," in
    let buffer := WriteString buffer (shortest NELongitude) in
    let sq := Append sq searchIdentifierBounds buffer in
    let sq := set_mask sq searchBitMaskLocation in
    (sq, None).

(** The dynamic dispatch [v.Query(&q)]: the option as the caller sees it
    after the call, the container, and the error. *)
Definition Query (o : SearchQuerier) (sq : SearchQuery)
  : SearchQuerier * SearchQuery * option Error :=
  match o with
  | SearchCoordinates lat lon =>
      let (sq', e) := SearchCoordinates_Query lat lon sq in (o, sq', e)
  | SearchLocation sl =>
      let (sq', e) := SearchLocation_Query sl sq in (o, sq', e)
  | SearchLocationCoordinates l lat lon =>
      let (sq', e) := SearchLocationCoordinates_Query l lat lon sq in
      (o, sq', e)
  | SearchBounds a b c d =>
      let (sq', e) := SearchBounds_Query a b c d sq in (o, sq', e)
  | SearchTerms st =>
      let '(st', sq', e) := SearchTerms_Query st sq in (SearchTerms st', sq', e)
  | SearchLimit sl =>
      let (sq', e) := SearchLimit_Query sl sq in (o, sq', e)
  | SearchOffset so =>
      let (sq', e) := SearchOffset_Query so sq in (o, sq', e)
  | SearchSort ss =>
      let (sq', e) := SearchSort_Query ss sq in (o, sq', e)
  | SearchCategories sc =>
      let (sq', e) := SearchCategories_Query sc sq in (o, sq', e)
  | SearchRadius sr =>
      let (sq', e) := SearchRadius_Query sr sq in (o, sq', e)
  | SearchDeals sd =>
      let (sq', e) := SearchDeals_Query sd sq in (o, sq', e)
  end.
End FloatOptions.

(** ** The signer *)

Record oauth := {
  ConsumerKey : string;
  Token : string;
  hashKey : string
}.

Definition SetHashKey (yoa : oauth) (consumerSecret tokenSecret : string)
  : oauth :=
  let hashKey := WriteString "" (percentEncode consumerSecret) in
  let hashKey := WriteString hashKey "&" in
  let hashKey := WriteString hashKey (percentEncode tokenSecret) in
  {| ConsumerKey := ConsumerKey yoa; Token := Token yoa; hashKey := hashKey |}.

Section Signer.
Context `{Crypto} `{RandSource} `{SortRoutine}.

(** [Sign], with the reading [now] of [time.Now().Unix()] and the state
    [rs] of the random source; [None] is a panic inside [Sort]. *)
Definition Sign (yoa : oauth) (method url : string) (elements : SearchQuery)
  (now : Z) (rs : Rand) : option (SearchQuery * Rand) :=
  let elements := Append elements "oauth_consumer_key" (ConsumerKey yoa) in
  let (n, rs) := nonce 30 rs in
  let elements := Append elements "oauth_nonce" n in
  let elements := Append elements "oauth_signature_method" "HMAC-SHA1" in
  let elements := Append elements "oauth_timestamp" (Itoa now) in
  let elements := Append elements "oauth_token" (Token yoa) in
  match Sort elements with
  | None => None
  | Some elements =>
      let signature :=
        Join [method; percentEncode url;
              percentEncode (SearchQuery_String elements)] "&" in
      let sum := hmac_sha1 (hashKey yoa) signature in
      Some (Append elements "oauth_signature"
              (percentEncode (base64_EncodeToString sum)), rs)
  end.
End Signer.

(** ** Notions of the specification *)

(** The eight option categories, one per conflict flag. The four location
    variants share the location category. *)
Inductive Category :=
| CatTerm | CatLimit | CatOffset | CatSort
| CatCategory | CatRadius | CatDeals | CatLocation.

#[global] Instance Category_eq_dec : EqDecision Category.
Proof. solve_decision. Defined.

Definition category (o : SearchQuerier) : Category :=
  match o with
  | SearchCoordinates _ _ => CatLocation
  | SearchLocation _ => CatLocation
  | SearchLocationCoordinates _ _ _ => CatLocation
  | SearchBounds _ _ _ _ => CatLocation
  | SearchTerms _ => CatTerm
  | SearchLimit _ => CatLimit
  | SearchOffset _ => CatOffset
  | SearchSort _ => CatSort
  | SearchCategories _ => CatCategory
  | SearchRadius _ => CatRadius
  | SearchDeals _ => CatDeals
  end.

Definition flag (c : Category) : Z :=
  match c with
  | CatTerm => searchBitMaskTerm
  | CatLimit => searchBitMaskLimit
  | CatOffset => searchBitMaskOffset
  | CatSort => searchBitMaskSort
  | CatCategory => searchBitMaskCategory
  | CatRadius => searchBitMaskRadius
  | CatDeals => searchBitMaskDeals
  | CatLocation => searchBitMaskLocation
  end.

(** The error taxonomy of the specification, read off the reason an
    [Error] carries: a duplicate reports an attempt to set something a
    second time, an invalid value reports what is invalid or missing. *)
Definition DuplicateOption (e : Error) : bool :=
  String.prefix "Attempting to set" (Message e).

Definition InvalidValue (e : Error) : bool :=
  String.prefix "Invalid" (Message e)
  || String.eqb (Message e) "No search categories are specified".

(** The Go type of an option value, by which an error names its source. *)
Definition option_name (o : SearchQuerier) : string :=
  match o with
  | SearchCoordinates _ _ => "SearchCoordinates"
  | SearchLocation _ => "SearchLocation"
  | SearchLocationCoordinates _ _ _ => "SearchLocationCoordinates"
  | SearchBounds _ _ _ _ => "SearchBounds"
  | SearchTerms _ => "SearchTerms"
  | SearchLimit _ => "SearchLimit"
  | SearchOffset _ => "SearchOffset"
  | SearchSort _ => "SearchSort"
  | SearchCategories _ => "SearchCategories"
  | SearchRadius _ => "SearchRadius"
  | SearchDeals _ => "SearchDeals"
  end.

Section Outcomes.
Context `{FloatFormat}.

(** [o1] and then [o2] are applied to a fresh container: the first call
    succeeds, and the second is rejected as a duplicate that names [o2] and
    leaves the container as the first call left it. *)
Definition second_is_duplicate (o1 o2 : SearchQuerier) : Prop :=
  exists o1' sq1 e,
    Query o1 fresh = (o1', sq1, None)
    /\ Query o2 sq1 = (o2, sq1, Some e)
    /\ DuplicateOption e = true
    /\ Source e = option_name o2.

(** [o1] and then [o2] are applied to a fresh container, and both calls
    succeed. *)
Definition both_succeed (o1 o2 : SearchQuerier) : Prop :=
  exists o1' sq1 o2' sq2,
    Query o1 fresh = (o1', sq1, None)
    /\ Query o2 sq1 = (o2', sq2, None).
End Outcomes.

(** A payload that passes the checks its option makes. *)
Definition validPayload (o : SearchQuerier) : bool :=
  match o with
  | SearchCoordinates lat lon => validLatitudeLongitude lat lon
  | SearchLocation _ => true
  | SearchLocationCoordinates _ lat lon => validLatitudeLongitude lat lon
  | SearchBounds a b c d =>
      validLatitudeLongitude a b && validLatitudeLongitude c d
  | SearchTerms _ => true
  | SearchLimit n => (0 <=? n) && (n <=? 20)
  | SearchOffset n => 0 <=? n
  | SearchSort n => (0 <=? n) && (n <=? 2)
  | SearchCategories sc =>
      negb (length sc =? 0)%nat && forallb (fun v => (0 <=? v) && (v <? 8)) sc
  | SearchRadius n => (0 <=? n) && (n <=? 40000)
  | SearchDeals _ => true
  end.

(** The constraints the specification's table puts on a payload: names and
    lists are not empty, coordinates lie within their closed ranges, numbers
    within theirs. *)
Definition within (lo x hi : float) : bool :=
  PrimFloat.leb lo x && PrimFloat.leb x hi.

Definition coordinates_in_range (lat lon : float) : bool :=
  within (-90)%float lat 90%float && within (-180)%float lon 180%float.

Definition specValid (o : SearchQuerier) : bool :=
  match o with
  | SearchCoordinates lat lon => coordinates_in_range lat lon
  | SearchLocation name => negb (String.eqb name "")
  | SearchLocationCoordinates name lat lon =>
      negb (String.eqb name "") && coordinates_in_range lat lon
  | SearchBounds a b c d =>
      coordinates_in_range a b && coordinates_in_range c d
  | SearchTerms st => negb (length st =? 0)%nat
  | SearchLimit n => (0 <=? n) && (n <=? 20)
  | SearchOffset n => 0 <=? n
  | SearchSort n => existsb (Z.eqb n) [0; 1; 2]
  | SearchCategories sc =>
      negb (length sc =? 0)%nat
      && forallb (fun v => existsb (Z.eqb v) [0; 1; 2; 3; 4; 5; 6; 7]) sc
  | SearchRadius n => (0 <=? n) && (n <=? 40000)
  | SearchDeals _ => true
  end.

(** *** The percent-encoding contract, byte by byte *)

Definition unreserved (c : ascii) : bool :=
  existsb (Ascii.eqb c)
    (list_ascii_of_string
       "ABCDEFGHIJKLMNOPQRSTUVWXYZabcdefghijklmnopqrstuvwxyz0123456789-._~").

(** The uppercase hexadecimal digit of a value below sixteen. *)
Definition hex_digit (n : Z) : ascii :=
  if n <? 10 then byte (ord "0" + n) else byte (ord "A" + (n - 10)).

Definition encode_byte (c : ascii) : string :=
  if unreserved c then String c ""
  else if Ascii.eqb c "," then "%252C"
  else String "%" (String (hex_digit (ord c / 16))
                     (String (hex_digit (ord c mod 16)) "")).

Fixpoint encode (raw : string) : string :=
  match raw with
  | EmptyString => ""
  | String c rest => encode_byte c ++ encode rest
  end.

(** A string whose bytes are all below 0x80. *)
Fixpoint is_ascii (s : string) : bool :=
  match s with
  | EmptyString => true
  | String c rest => (ord c <? 0x80) && is_ascii rest
  end.

(** *** UTF-8 text *)

(** A Unicode scalar value: a code point outside the surrogate range. *)
Definition scalar (r : Z) : bool :=
  (0 <=? r) && (r <=? 0x10FFFF) && negb ((0xD800 <=? r) && (r <=? 0xDFFF)).

(** The UTF-8 encoding of a scalar value. *)
Definition utf8_encode (r : Z) : string :=
  if r <? 0x80 then String (byte r) ""
  else if r <? 0x800 then
    String (byte (0xC0 + r / 64)) (String (byte (0x80 + r mod 64)) "")
  else if r <? 0x10000 then
    String (byte (0xE0 + r / 4096))
      (String (byte (0x80 + (r / 64) mod 64))
         (String (byte (0x80 + r mod 64)) ""))
  else
    String (byte (0xF0 + r / 262144))
      (String (byte (0x80 + (r / 4096) mod 64))
         (String (byte (0x80 + (r / 64) mod 64))
            (String (byte (0x80 + r mod 64)) ""))).

Fixpoint utf8_string (rs : list Z) : string :=
  match rs with
  | [] => ""
  | r :: rest => utf8_encode r ++ utf8_string rest
  end.

(** *** Serialization and sorting *)

(** The elements as [name=value] pairs separated by [&]. *)
Definition serialize (l : list searchQueryElement) : string :=
  String.concat "&" (map (fun e => Name e ++ "=" ++ Value e) l).

(** Byte-wise order on strings. *)
Definition string_le (s1 s2 : string) : Prop := String.leb s1 s2 = true.

(** The order of two elements by name. *)
Definition name_le (a b : searchQueryElement) : Prop :=
  string_le (Name a) (Name b).

(** The names of a sequence of elements are non-decreasing. *)
Definition names_sorted (l : list searchQueryElement) : Prop :=
  Sorted string_le (map Name l).

(** Insertion of [x] into the reversed prefix [rp], which the inner loop of
    the insertion sort performs by swaps. *)
Fixpoint insert_rev (x : searchQueryElement) (rp : list searchQueryElement)
  : list searchQueryElement :=
  match rp with
  | [] => [x]
  | y :: rp' =>
      if String.ltb (Name x) (Name y) then y :: insert_rev x rp'
      else x :: y :: rp'
  end.

(** The reversed prefix after the elements of [rest] were inserted one by
    one, as the outer loop does. *)
Definition insert_all (rest rp : list searchQueryElement)
  : list searchQueryElement :=
  fold_left (fun acc x => insert_rev x acc) rest rp.

(** ** Instances used to run the model on examples

    A formatter that is exact on the coordinates 0, 1 and 91 and marks every
    other value, a signature stub and a counting random source. None of the
    general statements depends on them. *)
Definition example_digits (f : float) : option string :=
  if PrimFloat.Leibniz.eqb f 0%float then Some "0"
  else if PrimFloat.Leibniz.eqb f 1%float then Some "1"
  else if PrimFloat.Leibniz.eqb f 91%float then Some "91"
  else None.

#[local] Instance example_format : FloatFormat := {|
  FormatFloat f _ _ _ :=
    match example_digits f with Some d => d | None => "?" end;
  fmtFloat verb f :=
    match example_digits f with
    | Some d => if Ascii.eqb verb "f" then d ++ ".000000" else d
    | None => "?"
    end
|}.

#[local] Instance example_crypto : Crypto := {|
  hmac_sha1 key msg := key ++ "|" ++ msg;
  base64_EncodeToString s := s
|}.

#[local] Instance example_rand : RandSource := {|
  Rand := N;
  rand_Int seed := (seed, (seed + 7)%N)
|}.

From Stdlib Require OrderedTypeEx.

(** ** Further notions

    Standard percent-decoding, as a server reads an encoded string: [%XY]
    with two hexadecimal digits is one byte, every other byte is itself. *)
Definition hex_value (c : ascii) : option Z :=
  let n := ord c in
  if (ord "0" <=? n) && (n <=? ord "9") then Some (n - ord "0")
  else if (ord "A" <=? n) && (n <=? ord "F") then Some (n - ord "A" + 10)
  else if (ord "a" <=? n) && (n <=? ord "f") then Some (n - ord "a" + 10)
  else None.

Fixpoint percentDecode (s : string) : string :=
  match s with
  | EmptyString => ""
  | String c t0 =>
      if Ascii.eqb c "%" then
        match t0 with
        | String h (String l rest) =>
            match hex_value h, hex_value l with
            | Some a, Some b => String (byte (16 * a + b)) (percentDecode rest)
            | _, _ => String c (percentDecode t0)
            end
        | _ => String c (percentDecode t0)
        end
      else String c (percentDecode t0)
  end.

(** A string without a comma byte. *)
Fixpoint comma_free (s : string) : bool :=
  match s with
  | EmptyString => true
  | String c rest => negb (Ascii.eqb c ",") && comma_free rest
  end.

(** A byte that may stand in a URL query without escaping, or the escape
    sign itself. *)
Definition url_safe (c : ascii) : bool := unreserved c || Ascii.eqb c "%".

Fixpoint all_bytes (p : ascii -> bool) (s : string) : bool :=
  match s with
  | EmptyString => true
  | String c rest => p c && all_bytes p rest
  end.

(** The query keys an accepted option writes, in order. *)
Definition wire_keys (o : SearchQuerier) : list string :=
  match o with
  | SearchCoordinates _ _ => [searchIdentifierCoordinates]
  | SearchLocation _ => [searchIdentifierLocation]
  | SearchLocationCoordinates _ _ _ =>
      [searchIdentifierLocation; searchIdentifierCoordinatesHint]
  | SearchBounds _ _ _ _ => [searchIdentifierBounds]
  | SearchTerms _ => [searchIdentifierTerm]
  | SearchLimit _ => [searchIdentifierLimit]
  | SearchOffset _ => [searchIdentifierOffset]
  | SearchSort _ => [searchIdentifierSort]
  | SearchCategories _ => [searchIdentifierCategory]
  | SearchRadius _ => [searchIdentifierRadius]
  | SearchDeals _ => [searchIdentifierDeals]
  end.

(** [searchCategoryNames[v]] *)
Definition category_name (v : Z) : string :=
  nth (Z.to_nat v) searchCategoryNames "".

(** A category code of the enumeration. *)
Definition known_category (v : Z) : bool :=
  (SearchCategoryActive <=? v) && (v <? SearchCategoryTotal).

Definition not_space (c : ascii) : bool := negb (Ascii.eqb c " ").

(** [v] is [s] with every space replaced by a plus: the two have the same
    length, [v] has a plus wherever [s] has a space, and the byte of [s]
    everywhere else. *)
Definition spaces_replaced (s v : string) : Prop :=
  String.length v = String.length s
  /\ forall i c, String.get i s = Some c ->
       (c = " "%char -> String.get i v = Some "+"%char)
       /\ (c <> " "%char -> String.get i v = Some c).

(** ** The client

    The result data of the API, as the package declares it. *)
Module Data.
Record Coordinates := {
  Latitude : float;
  Longitude : float
}.

Record BusinessLocation := {
  Address : list string;
  City : string;
  Position : Coordinates;
  CountryCode : string;
  DisplayAddress : list string;
  PostalCode : string;
  StateCode : string
}.

Record Business := {
  DisplayPhone : string;
  Distance : float;
  IsClosed : bool;
  Location : option BusinessLocation;
  Name : string;
  Phone : string;
  Rating : float
}.

Record BusinessRegion := {
  Center : Coordinates;
  Span : Coordinates
}.

Record Businesses := {
  Businesses_list : list (option Business);
  Region : option BusinessRegion;
  Total : Z
}.
End Data.

Record responseError := {
  Text : string;
  ID : string;
  Description : string
}.

Record responseErrorContainer := {
  container_Error : responseError
}.

(** What the client asks of Go's library: JSON decoding into the two
    result types (the value as decoding leaves it, and the error), the GET
    request (the response may be [nil]) and the reading of a body. *)
Class Library := {
  LibError : Type;
  Response : Type;
  Unmarshal_error : string -> responseErrorContainer * option LibError;
  Unmarshal_businesses : string -> Data.Businesses * option LibError;
  http_Get : string -> option Response * option LibError;
  ReadAll_Body : Response -> string * option LibError
}.

Record Client := {
  url : string;
  signer : oauth
}.

Definition New (URL consumerKey consumerSecret token tokenSecret : string)
  : Client :=
  {| url := URL;
     signer := SetHashKey {| ConsumerKey := consumerKey; Token := token;
                             hashKey := "" |}
                 consumerSecret tokenSecret |}.

(** The double quote. *)
Definition quote : ascii := "034".

(** What the two loops at the head of [validateResponse] find. *)
Inductive scanned :=
| NoOpening
| NoClosing
| Found (text : string).

(** [for iEnd := iStart + 1; iEnd < len(response); iEnd++], from [iEnd]
    with [n] iterations left: the index of the closing quote. *)
Fixpoint find_closing (response : string) (iEnd n : nat) : option nat :=
  match n with
  | O => None
  | S n' =>
      match String.get iEnd response with
      | Some c =>
          if Ascii.eqb c quote then Some iEnd
          else find_closing response (S iEnd) n'
      | None => None
      end
  end.

(** [for iStart, vStart := range response], from [iStart] with [n]
    iterations left. *)
Fixpoint scan (response : string) (iStart n : nat) : scanned :=
  match n with
  | O => NoOpening
  | S n' =>
      match String.get iStart response with
      | Some vStart =>
          if Ascii.eqb vStart quote then
            match find_closing response (S iStart)
                    (String.length response - S iStart) with
            | Some iEnd =>
                Found (String.substring (S iStart) (iEnd - S iStart) response)
            | None => NoClosing
            end
          else scan response (S iStart) n'
      | None => NoOpening
      end
  end.

Section ClientModel.
Context `{Library}.

(** Modelled from the spec: the declaration of [ErrorEmbedded] is not
    among the sources, and the specification names no such type; the
    client builds it from a source, a message and the error it wraps. The
    values of Go's [error] interface the client returns are an [Error], an
    [ErrorEmbedded] or an error of the library. *)
Inductive error :=
| Error_value (e : Error)
| ErrorEmbedded (Source Message : string) (Err : error)
| Library_error (e : LibError).

Definition newline : string := String "010" "".
Definition tab : string := String "009" "".

Definition validateResponse (response : string)
  : option Data.Businesses * option error :=
  match scan response 0 (String.length response) with
  | NoClosing =>
      (None, Some (Error_value
         {| Source := "Client";
            Message := "Could not find a matching closing '" ++ String quote
                       "' bracket while searching for the first JSON entry" |}))
  | NoOpening =>
      (None, Some (Error_value
         {| Source := "Client";
            Message := "Could not find an opening '" ++ String quote
                       "' bracket while search for the first JSON entry" |}))
  | Found text =>
      if String.eqb text "error" then
        let (yelpError, e) := Unmarshal_error response in
        match e with
        | Some e =>
            (None, Some (ErrorEmbedded "Client"
                           "Error retrieved from Yelp, could not unmarshal it"
                           (Library_error e)))
        | None =>
            (None, Some (Error_value
               {| Source := "Client";
                  Message := "Retrieved error from Yelp:" ++ newline ++ tab
                             ++ "Text:" ++ Text (container_Error yelpError)
                             ++ newline ++ tab
                             ++ "ID:" ++ ID (container_Error yelpError)
                             ++ newline ++ tab
                             ++ "Description:"
                             ++ Description (container_Error yelpError) |}))
        end
      else
        let (businesses, err) := Unmarshal_businesses response in
        (Some businesses, option_map Library_error err)
  end.

(** How a call ends: with a panic, or with the two results. *)
Inductive outcome :=
| Panic
| Return (businesses : option Data.Businesses) (err : option error).

Context `{Crypto} `{RandSource} `{SortRoutine}.

(** [Client.SearchQuery], with the clock reading and the state of the
    random source that [Sign] consumes. The deferred [data.Body.Close()]
    reads [data.Body] when the [defer] statement runs, before [err] is
    looked at: on a [nil] response that is a panic. *)
Definition Client_SearchQuery (c : Client) (q : SearchQuery) (now : Z)
  (rs : Rand) : outcome * Rand :=
  match Sign (signer c) "GET" (url c) q now rs with
  | None => (Panic, rs)
  | Some (qp, rs) =>
      let (data, err) := http_Get (Join [url c; SearchQuery_String qp] "?") in
      match data with
      | None => (Panic, rs)
      | Some data =>
          match err with
          | Some err =>
              (Return None
                 (Some (ErrorEmbedded "Client" "Failed to perform HTTP request"
                          (Library_error err))), rs)
          | None =>
              let (body, err) := ReadAll_Body data in
              match err with
              | Some err =>
                  (Return None
                     (Some (ErrorEmbedded "Client"
                              "Failed to read entire HTML body"
                              (Library_error err))), rs)
              | None =>
                  let (businesses, err) := validateResponse body in
                  match err with
                  | None => (Return businesses None, rs)
                  | Some err =>
                      (Return None
                         (Some (ErrorEmbedded "Client"
                                  "The retrieved yelp data is invalid" err)),
                       rs)
                  end
              end
          end
      end
  end.

Context `{FloatFormat}.

(** The loop of [SearchOptions] over the options from [qp] on: the
    container when every option was accepted, or the error of the first
    option that was not. What [Query] does to an option value itself stays
    with the caller and plays no part in the result. *)
Fixpoint SearchOptions_loop (options : list SearchQuerier) (qp : SearchQuery)
  : SearchQuery + Error :=
  match options with
  | [] => inl qp
  | v :: rest =>
      let '(_, qp, e) := Query v qp in
      match e with
      | Some e => inr e
      | None => SearchOptions_loop rest qp
      end
  end.

End ClientModel.

(** A string without a double quote. *)
Definition quote_free (s : string) : bool :=
  all_bytes (fun c => negb (Ascii.eqb c quote)) s.

(** A library for the examples: no errors, a response that is its URL. *)
#[local] Instance example_library : Library := {|
  LibError := string;
  Response := string;
  Unmarshal_error _ :=
    ({| container_Error := {| Text := ""; ID := ""; Description := "" |} |}, None);
  Unmarshal_businesses _ :=
    ({| Data.Businesses_list := []; Data.Region := None; Data.Total := 0 |}, None);
  http_Get u := (Some u, None);
  ReadAll_Body r := (r, None)
|}.

(** A library whose GET request fails without a response. *)
#[local] Instance failing_library : Library := {|
  LibError := string;
  Response := string;
  Unmarshal_error _ :=
    ({| container_Error := {| Text := ""; ID := ""; Description := "" |} |}, None);
  Unmarshal_businesses _ :=
    ({| Data.Businesses_list := []; Data.Region := None; Data.Total := 0 |}, None);
  http_Get u := (None, Some "no route to host");
  ReadAll_Body r := (r, None)
|}.

(** * Properties *)

(** ** The package's tests, run on the model *)

(** [TestPercentEncode]. *)
Example TestPercentEncode :
  map percentEncode
    [""; "abc"; "abc abc"; "a"; "abc!abc@abc"; "abc#abc$abc"; "abc%abc^abc";
     "abc&abc*abc"; "abc(abc)abc"; "abc-abc_abc"; "abc=abc+abc"]
  = [""; "abc"; "abc%20abc"; "a"; "abc%21abc%40abc"; "abc%23abc%24abc";
     "abc%25abc%5Eabc"; "abc%26abc%2Aabc"; "abc%28abc%29abc"; "abc-abc_abc";
     "abc%3Dabc%2Babc"].
Proof. reflexivity. Qed.

(** [TestArgumentRepetition]: [check v w] applies [v] and then [w] to a
    fresh container and reports whether the two calls returned [nil]. Every
    pair of positions passes the first call and fails the second; a pair of
    the remaining options fails the second call exactly on the diagonal. *)
Example TestArgumentRepetition :
  let listPosition :=
    [SearchLocation "Delft"; SearchLocationCoordinates "Delft" 0 0;
     SearchCoordinates 0 0; SearchBounds 0 0 1 1] in
  let listRemaining :=
    [SearchTerms ["bar"]; SearchLimit 1; SearchOffset 1;
     SearchSort SearchSortDistance; SearchCategories [SearchCategoryBars];
     SearchRadius 20000; SearchDeals false] in
  let is_nil (e : option Error) :=
    match e with None => true | Some _ => false end in
  let check v w :=
    let '(_, q, e1) := Query v fresh in
    let '(_, _, e2) := Query w q in
    (is_nil e1, is_nil e2) in
  map (fun v => map (check v) listPosition) listPosition
  = replicate 4 (replicate 4 (true, false))
  /\ imap (fun i v => imap (fun j w => check v w) listRemaining) listRemaining
     = imap (fun i _ => imap (fun j _ => (true, negb (i =? j)%nat))
                          listRemaining) listRemaining.
Proof. split; reflexivity. Qed.

Example Itoa_examples :
  map Itoa [0; 7; 20; 40000; -1; 1446163200]
  = ["0"; "7"; "20"; "40000"; "-1"; "1446163200"].
Proof. reflexivity. Qed.

(** ** Strings and bytes *)

Lemma append_assoc (a b c : string) : (a ++ b) ++ c = a ++ (b ++ c).
Proof. induction a as [|x a IH]; simpl; [reflexivity | now rewrite IH]. Qed.

Lemma append_nil_r (a : string) : a ++ "" = a.
Proof. induction a as [|x a IH]; simpl; [reflexivity | now rewrite IH]. Qed.

Lemma ord_range (c : ascii) : 0 <= ord c < 256.
Proof. unfold ord. pose proof (N_ascii_bounded c). lia. Qed.

Lemma byte_ord (c : ascii) : byte (ord c) = c.
Proof.
  unfold byte. pose proof (ord_range c) as Hc.
  rewrite Z.mod_small by lia. unfold ord.
  rewrite N2Z.id. apply ascii_N_embedding.
Qed.

Lemma ord_byte (v : Z) : ord (byte v) = v mod 256.
Proof.
  unfold ord, byte.
  pose proof (Z.mod_pos_bound v 256 ltac:(lia)) as Hb.
  rewrite N_ascii_embedding by lia. lia.
Qed.

(** [Itoa] renders a number that reads back as itself. *)
Lemma Itoa_read_back (n : Z) :
  option_map Z.of_int (NilEmpty.int_of_string (Itoa n)) = Some n.
Proof.
  unfold Itoa. rewrite NilEmpty.isi. cbn [option_map].
  now rewrite DecimalZ.of_to.
Qed.

(** ** The percent-encoder *)

(** Every iteration appends the rendering of one byte to the buffer. *)
Lemma percentEncode_body_byte (buffer : string) (c : ascii) :
  percentEncode_body buffer (ord c) = buffer ++ encode_byte c.
Proof.
  unfold percentEncode_body. rewrite byte_ord.
  unfold WriteString, WriteByte.
  destruct c as [[] [] [] [] [] [] [] []];
    vm_compute shouldPercentEncode; cbv iota;
    try (rewrite !append_assoc); reflexivity.
Qed.

Lemma percentEncode_body_spec (buffer : string) (v : Z) :
  percentEncode_body buffer v = buffer ++ encode_byte (byte v).
Proof.
  rewrite <- percentEncode_body_byte.
  unfold percentEncode_body. now rewrite byte_ord.
Qed.

Lemma fold_percentEncode_body (l : list Z) (buffer : string) :
  fold_left percentEncode_body l buffer
  = buffer ++ String.concat "" (map (fun v => encode_byte (byte v)) l).
Proof.
  revert buffer. induction l as [|v l IH]; intros buffer; simpl.
  - now rewrite append_nil_r.
  - rewrite IH, percentEncode_body_spec, append_assoc. f_equal.
    destruct l; simpl; [now rewrite append_nil_r | reflexivity].
Qed.

Lemma range_runes_ascii (s : string) :
  is_ascii s = true -> range_runes s = map ord (list_ascii_of_string s).
Proof.
  induction s as [|c s IH]; simpl; [reflexivity|].
  intros [Hc Hs]%andb_prop. unfold decoderune, runeSelf. rewrite Hc.
  now rewrite IH.
Qed.

Lemma concat_encode_bytes (s : string) :
  String.concat "" (map (fun v => encode_byte (byte v))
                      (map ord (list_ascii_of_string s))) = encode s.
Proof.
  induction s as [|c s IH]; simpl; [reflexivity|].
  rewrite byte_ord. rewrite <- IH.
  destruct (list_ascii_of_string s); simpl; [now rewrite append_nil_r | reflexivity].
Qed.

(** On input without a byte above 0x7F the encoder meets the byte-wise
    contract. *)
Lemma percentEncode_ascii (s : string) :
  is_ascii s = true -> percentEncode s = encode s.
Proof.
  intros Hs. unfold percentEncode.
  rewrite fold_percentEncode_body, (range_runes_ascii _ Hs). simpl.
  apply concat_encode_bytes.
Qed.

(** ** Decoding UTF-8 *)

Lemma land_multiple_low (x y n : Z) :
  0 <= n -> x mod 2 ^ n = 0 -> 0 <= y < 2 ^ n -> Z.land x y = 0.
Proof.
  intros Hn Hx Hy. apply Z.bits_inj'. intros i Hi.
  rewrite Z.land_spec, Z.bits_0.
  destruct (Z.lt_ge_cases i n) as [Hlt|Hge].
  - assert (Hxd : x = x / 2 ^ n * 2 ^ n).
    { pose proof (Z.div_mod x (2 ^ n)). lia. }
    rewrite Hxd, Z.mul_pow2_bits_low by lia. reflexivity.
  - assert (Z.testbit y i = false) as ->; [|apply andb_false_r].
    destruct (Z.eq_dec y 0) as [->|Hy0]; [apply Z.bits_0|].
    apply Z.bits_above_log2; [lia|].
    assert (Z.log2 y < n) by (apply Z.log2_lt_pow2; lia). lia.
Qed.

Lemma lor_multiple_low (x y n : Z) :
  0 <= n -> x mod 2 ^ n = 0 -> 0 <= y < 2 ^ n -> Z.lor x y = x + y.
Proof.
  intros Hn Hx Hy. pose proof (Z.add_lor_land x y) as E.
  rewrite (land_multiple_low x y n) in E by assumption. lia.
Qed.

Ltac lia_div := Z.to_euclidean_division_equations; lia.

(** Decide the condition of the conditional at the head of the goal. *)
Ltac decide_comparisons :=
  repeat match goal with
         | |- (if ?b then _ else _) = _ =>
             first
               [ match b with
                 | context [?x <=? ?y] => destruct (Z.leb_spec x y); try lia
                 | context [?x <? ?y] => destruct (Z.ltb_spec x y); try lia
                 end
               | progress cbn [andb negb orb] ]
         end.

Lemma decoderune_bytes_2 (s0 s1 : Z) (o2 o3 : option Z) :
  0xC2 <= s0 < 0xE0 -> 0x80 <= s1 <= 0xBF ->
  decoderune_bytes s0 (Some s1) o2 o3
  = ((s0 - 0xC0) * 64 + (s1 - 0x80), 2%nat).
Proof.
  intros H0 H1. unfold decoderune_bytes, cont, t2, t3, locb, hicb, rune1Max.
  assert (E : Z.lor (Z.shiftl (Z.land s0 mask2) 6) (Z.land s1 maskx)
              = (s0 - 0xC0) * 64 + (s1 - 0x80)).
  { change mask2 with (Z.ones 5). change maskx with (Z.ones 6).
    rewrite !Z.land_ones, Z.shiftl_mul_pow2 by lia.
    rewrite (lor_multiple_low _ _ 6); change (2 ^ 6) with 64;
      change (2 ^ 5) with 32; lia_div. }
  rewrite E. decide_comparisons. reflexivity.
Qed.

Lemma decoderune_bytes_3 (s0 s1 s2 : Z) (o3 : option Z) :
  0xE0 <= s0 < 0xF0 -> 0x80 <= s1 <= 0xBF -> 0x80 <= s2 <= 0xBF ->
  let r := (s0 - 0xE0) * 4096 + (s1 - 0x80) * 64 + (s2 - 0x80) in
  0x800 <= r -> ~ (0xD800 <= r <= 0xDFFF) ->
  decoderune_bytes s0 (Some s1) (Some s2) o3 = (r, 3%nat).
Proof.
  intros H0 H1 H2 r Hr Hs.
  unfold decoderune_bytes, cont, t2, t3, t4, locb, hicb, rune2Max,
    surrogateMin, surrogateMax.
  assert (E : Z.lor (Z.lor (Z.shiftl (Z.land s0 mask3) 12)
                           (Z.shiftl (Z.land s1 maskx) 6))
                    (Z.land s2 maskx) = r).
  { change mask3 with (Z.ones 4). change maskx with (Z.ones 6).
    rewrite !Z.land_ones, !Z.shiftl_mul_pow2 by lia.
    change (2 ^ 12) with 4096; change (2 ^ 6) with 64; change (2 ^ 4) with 16.
    rewrite (lor_multiple_low (_ * 4096) (_ * 64) 12)
      by (change (2 ^ 12) with 4096; lia_div).
    rewrite (lor_multiple_low _ _ 6) by (change (2 ^ 6) with 64; lia_div).
    subst r. lia_div. }
  rewrite E. subst r. decide_comparisons; reflexivity.
Qed.

Lemma decoderune_bytes_4 (s0 s1 s2 s3 : Z) :
  0xF0 <= s0 < 0xF8 -> 0x80 <= s1 <= 0xBF -> 0x80 <= s2 <= 0xBF ->
  0x80 <= s3 <= 0xBF ->
  let r := (s0 - 0xF0) * 262144 + (s1 - 0x80) * 4096 + (s2 - 0x80) * 64
           + (s3 - 0x80) in
  0x10000 <= r <= 0x10FFFF ->
  decoderune_bytes s0 (Some s1) (Some s2) (Some s3) = (r, 4%nat).
Proof.
  intros H0 H1 H2 H3 r Hr.
  unfold decoderune_bytes, cont, t2, t3, t4, t5, locb, hicb, rune3Max, maxRune.
  assert (E : Z.lor (Z.lor (Z.lor (Z.shiftl (Z.land s0 mask4) 18)
                                  (Z.shiftl (Z.land s1 maskx) 12))
                           (Z.shiftl (Z.land s2 maskx) 6))
                    (Z.land s3 maskx) = r).
  { change mask4 with (Z.ones 3). change maskx with (Z.ones 6).
    rewrite !Z.land_ones, !Z.shiftl_mul_pow2 by lia.
    change (2 ^ 18) with 262144; change (2 ^ 12) with 4096;
      change (2 ^ 6) with 64; change (2 ^ 3) with 8.
    rewrite (lor_multiple_low (_ * 262144) (_ * 4096) 18)
      by (change (2 ^ 18) with 262144; lia_div).
    rewrite (lor_multiple_low _ (_ * 64) 12)
      by (change (2 ^ 12) with 4096; lia_div).
    rewrite (lor_multiple_low _ _ 6) by (change (2 ^ 6) with 64; lia_div).
    subst r. lia_div. }
  rewrite E. subst r. decide_comparisons; reflexivity.
Qed.

(** A [range] loop reads the encoding of a scalar value back as that
    value and resumes after it. *)
Lemma range_runes_utf8_encode (r : Z) (rest : string) :
  scalar r = true ->
  range_runes (utf8_encode r ++ rest) = r :: range_runes rest.
Proof.
  unfold scalar. intros Hr.
  apply andb_prop in Hr as [Hr Hs]. apply andb_prop in Hr as [Hlo Hhi].
  apply Z.leb_le in Hlo, Hhi.
  assert (Hsur : ~ (0xD800 <= r <= 0xDFFF)).
  { intros [Ha Hb]. apply Z.leb_le in Ha, Hb. now rewrite Ha, Hb in Hs. }
  clear Hs. unfold utf8_encode.
  destruct (Z.ltb_spec r 0x80) as [H1|H1];
    [|destruct (Z.ltb_spec r 0x800) as [H2|H2];
      [|destruct (Z.ltb_spec r 0x10000) as [H3|H3]]];
    cbn [append range_runes]; unfold decoderune, runeSelf;
    rewrite !ord_byte; cbn [String.get option_map]; rewrite ?ord_byte.
  - rewrite (Z.mod_small _ 256) by lia_div.
    destruct (Z.ltb_spec r 128); [reflexivity | lia_div].
  - rewrite !(Z.mod_small _ 256) by lia_div.
    destruct (Z.ltb_spec (192 + r / 64) 128); [lia_div|].
    rewrite decoderune_bytes_2 by lia_div.
    replace ((192 + r / 64 - 192) * 64 + (128 + r mod 64 - 128)) with r by lia_div.
    reflexivity.
  - rewrite !(Z.mod_small _ 256) by lia_div.
    destruct (Z.ltb_spec (224 + r / 4096) 128); [lia_div|].
    rewrite decoderune_bytes_3 by lia_div.
    replace ((224 + r / 4096 - 224) * 4096 + (128 + r / 64 mod 64 - 128) * 64
             + (128 + r mod 64 - 128)) with r by lia_div.
    reflexivity.
  - rewrite !(Z.mod_small _ 256) by lia_div.
    destruct (Z.ltb_spec (240 + r / 262144) 128); [lia_div|].
    rewrite decoderune_bytes_4 by lia_div.
    replace ((240 + r / 262144 - 240) * 262144
             + (128 + r / 4096 mod 64 - 128) * 4096
             + (128 + r / 64 mod 64 - 128) * 64 + (128 + r mod 64 - 128))
      with r by lia_div.
    reflexivity.
Qed.

Lemma range_runes_utf8_string (rs : list Z) :
  forallb scalar rs = true -> range_runes (utf8_string rs) = rs.
Proof.
  induction rs as [|r rs IH]; simpl; [reflexivity|].
  intros [Hr Hrs]%andb_prop.
  now rewrite range_runes_utf8_encode, IH.
Qed.

Lemma length_append (a b : string) :
  String.length (a ++ b) = (String.length a + String.length b)%nat.
Proof. induction a as [|c a IH]; simpl; [reflexivity | now rewrite IH]. Qed.

(** C3, at a failing input: the two bytes C3 A9 (one character in UTF-8)
    come out as the single rendering [%E9], where the byte-wise contract
    renders each byte, [%C3%A9]; a lone byte E9 comes out as [%FD]. *)
Theorem C3_percentEncode_bytes_above_7F :
  percentEncode (String "195" (String "169" "")) = "%E9"
  /\ encode (String "195" (String "169" "")) = "%C3%A9"
  /\ percentEncode (String "233" "") = "%FD"
  /\ encode (String "233" "") = "%E9".
Proof. repeat split; reflexivity. Qed.

Lemma encode_byte_length (c : ascii) :
  (String.length (encode_byte c) <= 5)%nat.
Proof.
  unfold encode_byte. destruct (unreserved c); [simpl; lia|].
  destruct (Ascii.eqb c ","); simpl; lia.
Qed.

Lemma encode_byte_high (v : Z) :
  0x80 <= v < 256 -> String.length (encode_byte (byte v)) = 3%nat.
Proof.
  intros Hv. rewrite <- (Z.mod_small v 256) in Hv by lia.
  rewrite <- ord_byte in Hv. revert Hv. generalize (byte v) as c.
  intros c; destruct c as [[] [] [] [] [] [] [] []]; vm_compute;
    intros [H1 H2]; first [reflexivity | now elim H1].
Qed.

(** On every character outside ASCII the encoder gives the rendering of
    one byte, and so differs from the byte-wise contract, which gives one
    [%XX] for each of the two to four bytes of the character. *)
Lemma percentEncode_non_ascii_character (r : Z) :
  scalar r = true -> 0x80 <= r ->
  percentEncode (utf8_encode r) = encode_byte (byte r)
  /\ percentEncode (utf8_encode r) <> encode (utf8_encode r).
Proof.
  intros Hs Hr.
  assert (E : percentEncode (utf8_encode r) = encode_byte (byte r)).
  { unfold percentEncode. rewrite <- (append_nil_r (utf8_encode r)).
    rewrite range_runes_utf8_encode by assumption.
    cbn [range_runes fold_left]. now rewrite percentEncode_body_spec. }
  split; [exact E|]. intros Heq. rewrite E in Heq.
  pose proof (encode_byte_length (byte r)) as Hlen. rewrite Heq in Hlen.
  unfold scalar in Hs. apply andb_prop in Hs as [Hs _].
  apply andb_prop in Hs as [_ Hhi]. apply Z.leb_le in Hhi.
  revert Hlen. unfold utf8_encode.
  destruct (Z.ltb_spec r 0x80); [lia|].
  destruct (Z.ltb_spec r 0x800); [|destruct (Z.ltb_spec r 0x10000)];
    cbn [encode]; rewrite !length_append, !encode_byte_high by lia_div;
    simpl; lia.
Qed.

(** C5: the encoder renders one byte per rune of the input, the low-order
    byte of the rune; on the UTF-8 encoding of a sequence of scalar values
    the output therefore has one rendering per character, whatever the
    number of bytes the character takes. *)
Theorem C5_percentEncode_truncates_runes (source : string) :
  percentEncode source
  = String.concat "" (map (fun v => encode_byte (byte v)) (range_runes source))
  /\ forall rs, forallb scalar rs = true -> source = utf8_string rs ->
       percentEncode source
       = String.concat "" (map (fun r => encode_byte (byte r)) rs).
Proof.
  assert (G : percentEncode source
              = String.concat "" (map (fun v => encode_byte (byte v))
                                    (range_runes source))).
  { unfold percentEncode. now rewrite fold_percentEncode_body. }
  split; [exact G|]. intros rs Hrs ->.
  now rewrite G, range_runes_utf8_string.
Qed.

Lemma C5_witness :
  percentEncode (utf8_string [0xE9; 0x20AC; 0x141; 0x12C; 0x41])
  = "%E9%ACA%252CA".
Proof.
  rewrite (proj2 (C5_percentEncode_truncates_runes
                    (utf8_string [0xE9; 0x20AC; 0x141; 0x12C; 0x41]))
                 [0xE9; 0x20AC; 0x141; 0x12C; 0x41] eq_refl eq_refl).
  reflexivity.
Defined.

(** ** Serialization *)

Lemma String_loop_spec (rest : list searchQueryElement) :
  forall buffer,
    String_loop buffer rest
    = match rest with
      | [] => buffer
      | _ :: _ => buffer ++ "&" ++ serialize rest
      end.
Proof.
  induction rest as [|e rest IH]; intros buffer; [reflexivity|].
  cbn [String_loop]. rewrite IH. unfold WriteString, serialize.
  cbn [map String.concat].
  destruct rest as [|e' rest]; cbn [map]; now rewrite !append_assoc.
Qed.

Lemma SearchQuery_String_spec (q : SearchQuery) :
  SearchQuery_String q = serialize (queries q).
Proof.
  unfold SearchQuery_String. destruct (queries q) as [|e0 rest]; [reflexivity|].
  rewrite String_loop_spec. unfold WriteString, serialize.
  cbn [map String.concat append].
  destruct rest as [|e' rest]; cbn [map]; now rewrite !append_assoc.
Qed.

Lemma nonce_loop_length `{RandSource} (count : nat) :
  forall result rs,
    String.length (fst (nonce_loop count result rs))
    = (String.length result + count)%nat.
Proof.
  induction count as [|count IH]; intros result rs; cbn [nonce_loop].
  - simpl. lia.
  - destruct (rand_Int rs) as [r rs']. rewrite IH.
    unfold WriteByte. rewrite length_append. simpl. lia.
Qed.

Lemma get_In (s : string) :
  forall i c, String.get i s = Some c -> In c (list_ascii_of_string s).
Proof.
  induction s as [|a s IH]; intros i c; [discriminate|].
  destruct i as [|i]; cbn [String.get list_ascii_of_string In].
  - intros [= ->]. now left.
  - intros Hc. right. eapply IH, Hc.
Qed.

Lemma In_append (a b : string) (c : ascii) :
  In c (list_ascii_of_string (a ++ b))
  -> In c (list_ascii_of_string a) \/ In c (list_ascii_of_string b).
Proof.
  induction a as [|x a IH]; cbn [append list_ascii_of_string In]; [now right|].
  intros [->|Hc]; [now left; left|]. destruct (IH Hc); [left; now right | now right].
Qed.

(** A nonce is made of the sixty-two alphanumeric characters. *)
Lemma nonce_characters `{RandSource} (length : Z) (rs : Rand) (c : ascii) :
  In c (list_ascii_of_string (fst (nonce length rs)))
  -> In c (list_ascii_of_string nonceCharacters).
Proof.
  unfold nonce. generalize (Z.to_nat length) as count.
  enough (G : forall count result rs,
             (forall c, In c (list_ascii_of_string result)
                        -> In c (list_ascii_of_string nonceCharacters))
             -> In c (list_ascii_of_string (fst (nonce_loop count result rs)))
             -> In c (list_ascii_of_string nonceCharacters)).
  { intros count. apply G. intros c' []. }
  induction count as [|count IH]; intros result rs0 Hres; cbn [nonce_loop].
  - apply Hres.
  - destruct (rand_Int rs0) as [r rs']. apply IH.
    intros c' Hc'. unfold WriteByte in Hc'.
    apply In_append in Hc' as [Hc'|Hc']; [now apply Hres|].
    cbn [list_ascii_of_string In] in Hc'. destruct Hc' as [<-|[]].
    unfold index.
    assert (Hrem : 0 <= Z.rem (Z.of_N r) nonceLength < nonceLength).
    { apply Z.rem_bound_pos; [lia | reflexivity]. }
    destruct (Z.ltb_spec (Z.rem (Z.of_N r) nonceLength) 0); [lia|].
    destruct (String.get _ nonceCharacters) as [c0|] eqn:Hget.
    + eapply get_In, Hget.
    + exfalso. revert Hget.
      generalize (Z.rem (Z.of_N r) nonceLength), Hrem. intros z Hz Hget.
      assert (Hlt : (Z.to_nat z < 62)%nat) by (change nonceLength with 62 in Hz; lia).
      revert Hget. generalize (Z.to_nat z), Hlt. clear.
      intros n Hn.
      do 62 (destruct n as [|n]; [discriminate|]). lia.
Qed.

(** ** Search options *)

Local Open Scope list_scope.

Lemma mask_set_fresh (bit : Z) : mask_set fresh bit = false.
Proof. reflexivity. Qed.

(** The flags of two categories overlap exactly when the categories are
    the same. *)
Lemma flag_disjoint (c1 c2 : Category) :
  (Z.land (flag c1) (flag c2) =? 0) = negb (bool_decide (c1 = c2)).
Proof. destruct c1, c2; reflexivity. Qed.

Lemma mask_set_after_first (c1 c2 : Category) (l : list searchQueryElement) :
  mask_set {| queries := l; mask := Z.lor 0 (flag c1) |} (flag c2)
  = bool_decide (c1 = c2).
Proof.
  unfold mask_set. cbn [mask]. rewrite Z.lor_0_l, flag_disjoint.
  apply negb_involutive.
Qed.

(** *** Coordinates *)

Lemma SFleb_SFltb (a b : spec_float) : SFleb a b = true -> SFltb b a = false.
Proof.
  unfold SFleb, SFltb.
  destruct a as [sa|sa| |sa ma ea], b as [sb|sb| |sb mb eb]; cbn [SFcompare];
    try destruct sa; try destruct sb; try easy;
    change (Pos.compare_cont Eq mb ma) with (Pos.compare mb ma);
    change (Pos.compare_cont Eq ma mb) with (Pos.compare ma mb);
    rewrite (Z.compare_antisym ea eb), (Pos.compare_antisym ma mb);
    destruct (ea ?= eb)%Z; cbn [CompOpp]; try easy;
    destruct (ma ?= mb)%positive; easy.
Qed.

Lemma leb_ltb (a b : float) :
  PrimFloat.leb a b = true -> PrimFloat.ltb b a = false.
Proof. rewrite leb_spec, ltb_spec. apply SFleb_SFltb. Qed.

(** Coordinates within the closed ranges pass [validLatitudeLongitude]. *)
Lemma coordinates_in_range_valid (lat lon : float) :
  coordinates_in_range lat lon = true -> validLatitudeLongitude lat lon = true.
Proof.
  unfold coordinates_in_range, within, validLatitudeLongitude.
  intros [[H1 H2]%andb_prop [H3 H4]%andb_prop]%andb_prop.
  now rewrite (leb_ltb _ _ H1), (leb_ltb _ _ H2), (leb_ltb _ _ H3),
    (leb_ltb _ _ H4).
Qed.

(** The checks also let through what no range contains: a NaN compares
    false with every bound. *)
Example validLatitudeLongitude_nan :
  validLatitudeLongitude nan nan = true
  /\ coordinates_in_range nan nan = false.
Proof. split; reflexivity. Qed.

(** A payload within the constraints of the specification passes the
    checks of its option. *)
Lemma specValid_validPayload (o : SearchQuerier) :
  specValid o = true -> validPayload o = true.
Proof.
  destruct o; cbn [specValid validPayload]; try easy.
  - apply coordinates_in_range_valid.
  - intros [_ H]%andb_prop. now apply coordinates_in_range_valid.
  - intros [H1 H2]%andb_prop.
    now rewrite !coordinates_in_range_valid.
  - cbn [existsb].
    destruct (Z.eqb_spec ss 0) as [->|]; [easy|].
    destruct (Z.eqb_spec ss 1) as [->|]; [easy|].
    destruct (Z.eqb_spec ss 2) as [->|]; easy.
  - intros [-> H]%andb_prop. cbn [andb].
    induction sc as [|v sc IH]; [reflexivity|].
    cbn [forallb] in *. apply andb_prop in H as [Hv H].
    rewrite (IH H), andb_true_r. clear IH H. cbn [existsb] in Hv.
    repeat match type of Hv with
           | (v =? ?k) || _ = true =>
               destruct (Z.eqb_spec v k) as [->|]; [reflexivity|]; cbn [orb] in Hv
           end.
    discriminate Hv.
Qed.

(** The flag bits stay within a [uint8]. *)
Lemma lor_flag_range (m : Z) (c : Category) :
  0 <= m < 256 -> 0 <= Z.lor m (flag c) < 256.
Proof.
  intros Hm. assert (Hf : 0 <= flag c < 256) by (destruct c; cbv; split; congruence).
  split; [apply Z.lor_nonneg; lia|].
  destruct (Z.eq_dec (Z.lor m (flag c)) 0) as [->|Hz]; [lia|].
  assert (Hpos : 0 < Z.lor m (flag c)).
  { pose proof (proj2 (Z.lor_nonneg m (flag c)) ltac:(lia)). lia. }
  apply (Z.log2_lt_pow2 _ 8 Hpos). rewrite Z.log2_lor by lia.
  apply Z.max_lub_lt.
  - destruct (Z.eq_dec m 0) as [->|]; [reflexivity|]. apply Z.log2_lt_pow2; lia.
  - destruct c; reflexivity.
Qed.

Lemma SearchCategories_loop_valid (sc : list Z) :
  forallb (fun v => (0 <=? v) && (v <? 8)) sc = true ->
  forall i buffer, exists out, SearchCategories_loop sc i buffer = inr out.
Proof.
  induction sc as [|v sc IH]; intros Hsc i buffer; cbn [SearchCategories_loop].
  - now exists buffer.
  - cbn [forallb] in Hsc. apply andb_prop in Hsc as [Hv Hsc].
    apply andb_prop in Hv as [Hv0 Hv8].
    apply Z.leb_le in Hv0. apply Z.ltb_lt in Hv8.
    unfold SearchCategoryActive, SearchCategoryTotal.
    destruct (Z.ltb_spec v 0); [lia|].
    destruct (Z.geb_spec v 8); [lia|]. cbn [orb].
    apply IH, Hsc.
Qed.

Lemma SearchCategories_loop_invalid (sc : list Z) :
  forall i buffer e, SearchCategories_loop sc i buffer = inl e ->
  InvalidValue e = true /\ DuplicateOption e = false.
Proof.
  induction sc as [|v sc IH]; intros i buffer e; cbn [SearchCategories_loop].
  - discriminate.
  - destruct ((v <? SearchCategoryActive) || (v >=? SearchCategoryTotal)).
    + intros [= <-]. split; reflexivity.
    + apply IH.
Qed.

Lemma SearchTerms_loop_spec (st : list string) :
  SearchTerms_loop st 0 (length st) = map Replace_space_plus st.
Proof.
  enough (G : forall done todo,
             SearchTerms_loop (map Replace_space_plus done ++ todo)
               (length done) (length todo)
             = map Replace_space_plus (done ++ todo)) by apply (G [] st).
  intros done todo. revert done.
  induction todo as [|v todo IH]; intros done; cbn [SearchTerms_loop length].
  - now rewrite !app_nil_r.
  - rewrite list_lookup_middle by now rewrite length_map.
    replace (<[length done := Replace_space_plus v]>
               (map Replace_space_plus done ++ v :: todo))
      with (map Replace_space_plus (done ++ [v]) ++ todo).
    + replace (S (length done)) with (length (done ++ [v]))
        by (rewrite length_app; simpl; lia).
      rewrite IH. now rewrite <- app_assoc.
    + rewrite map_app, <- app_assoc. cbn [map app].
      replace (length done) with (length (map Replace_space_plus done) + 0)%nat
        by (rewrite length_map; lia).
      now rewrite insert_app_r.
Qed.

Section QueryFacts.
Context `{FloatFormat}.

Ltac unfold_query :=
  unfold Query, SearchCoordinates_Query, SearchLocation_Query,
    SearchLocationCoordinates_Query, SearchBounds_Query, SearchTerms_Query,
    SearchLimit_Query, SearchOffset_Query, SearchSort_Query,
    SearchCategories_Query, SearchRadius_Query, SearchDeals_Query in *.

(** An option whose category flag is set is rejected as a duplicate, and
    nothing changes. *)
Lemma Query_duplicate (o : SearchQuerier) (sq : SearchQuery) :
  mask_set sq (flag (category o)) = true ->
  exists e, Query o sq = (o, sq, Some e)
            /\ DuplicateOption e = true /\ InvalidValue e = false
            /\ Source e = option_name o.
Proof.
  intros Hm. destruct o; cbn [category flag] in Hm; unfold_query;
    rewrite Hm; eexists; repeat split; reflexivity.
Qed.

(** An option with a valid payload whose category flag is not set is
    accepted: at least one element is appended and the flag is set. *)
Lemma Query_valid (o : SearchQuerier) (sq : SearchQuery) :
  mask_set sq (flag (category o)) = false ->
  validPayload o = true ->
  exists o' new,
    Query o sq
    = (o', {| queries := queries sq ++ new;
              mask := Z.lor (mask sq) (flag (category o)) |}, None)
    /\ new <> [] /\ category o' = category o.
Proof.
  intros Hm Hv.
  destruct o; cbn [category flag validPayload] in Hm, Hv; unfold_query;
    rewrite Hm; unfold set_mask, Append; cbn [queries mask].
  - rewrite Hv. cbn [Bool.eqb]. eexists _, [_]. now split.
  - eexists _, [_]. now split.
  - rewrite Hv. cbn [Bool.eqb]. eexists _, [_; _].
    rewrite <- app_assoc. now split.
  - apply andb_prop in Hv as [-> ->]. cbn [Bool.eqb]. eexists _, [_]. now split.
  - eexists _, [_]. now split.
  - apply andb_prop in Hv as [H0 H1]. apply Z.leb_le in H0, H1.
    destruct (Z.ltb_spec sl 0); [lia|]. destruct (Z.gtb_spec sl 20); [lia|].
    cbn [orb]. eexists _, [_]. now split.
  - apply Z.leb_le in Hv. destruct (Z.ltb_spec so 0); [lia|].
    eexists _, [_]. now split.
  - apply andb_prop in Hv as [H0 H1]. apply Z.leb_le in H0, H1.
    unfold SearchSortBestMatched, SearchSortHighestRated.
    destruct (Z.ltb_spec ss 0); [lia|]. destruct (Z.gtb_spec ss 2); [lia|].
    cbn [orb]. eexists _, [_]. now split.
  - apply andb_prop in Hv as [Hn Hall].
    apply negb_true_iff in Hn. rewrite Hn.
    destruct (SearchCategories_loop_valid sc Hall 0%nat "") as [out ->].
    eexists _, [_]. now split.
  - apply andb_prop in Hv as [H0 H1]. apply Z.leb_le in H0, H1.
    destruct (Z.ltb_spec sr 0); [lia|]. destruct (Z.gtb_spec sr 40000); [lia|].
    cbn [orb]. eexists _, [_]. now split.
  - destruct sd; eexists _, [_]; now split.
Qed.

(** Whatever the outcome, a failing call leaves the flags alone; the
    elements change in one case only. *)
Lemma Query_failure (o : SearchQuerier) (sq : SearchQuery)
  (o' : SearchQuerier) (sq' : SearchQuery) (e : Error) :
  Query o sq = (o', sq', Some e) ->
  o' = o /\ mask sq' = mask sq
  /\ (sq' = sq
      \/ exists l lat lon,
           o = SearchLocationCoordinates l lat lon
           /\ mask_set sq searchBitMaskLocation = false
           /\ validLatitudeLongitude lat lon = false
           /\ sq' = Append sq searchIdentifierLocation (Replace_space_plus l)).
Proof.
  intros HQ. destruct o; unfold_query;
    repeat case_match; simplify_eq; try (now auto).
  split; [reflexivity|]. split; [reflexivity|]. right.
  eexists _, _, _. split; [reflexivity|].
  match goal with
  | Hv : Bool.eqb ?v false = true |- _ =>
      destruct v; [discriminate Hv | auto]
  end.
Qed.

Lemma Query_failure_kind (o : SearchQuerier) (sq : SearchQuery)
  (o' : SearchQuerier) (sq' : SearchQuery) (e : Error) :
  Query o sq = (o', sq', Some e) ->
  if mask_set sq (flag (category o))
  then DuplicateOption e = true /\ InvalidValue e = false
  else InvalidValue e = true /\ DuplicateOption e = false.
Proof.
  intros HQ.
  destruct (mask_set sq (flag (category o))) eqn:Hm.
  - destruct (Query_duplicate o sq Hm) as (e' & HQ' & Hd & Hi & _).
    rewrite HQ in HQ'. now simplify_eq.
  - destruct o; cbn [category flag] in Hm; unfold_query; rewrite Hm in HQ;
      repeat case_match; simplify_eq; try (split; reflexivity).
    eapply SearchCategories_loop_invalid; eassumption.
Qed.

(** What a call does to the option value itself. *)
Lemma Query_option_after (o : SearchQuerier) (sq : SearchQuery)
  (o' : SearchQuerier) (sq' : SearchQuery) (e : option Error) :
  Query o sq = (o', sq', e) ->
  o' = o
  \/ exists st, o = SearchTerms st /\ e = None
                /\ o' = SearchTerms (map Replace_space_plus st).
Proof.
  intros HQ. destruct o; unfold_query;
    repeat case_match; simplify_eq; try (now left).
  right. eexists. rewrite SearchTerms_loop_spec. auto.
Qed.

(** The mask of a container stays a [uint8] value. *)
Lemma Query_mask_range (o : SearchQuerier) (sq : SearchQuery)
  (o' : SearchQuerier) (sq' : SearchQuery) (e : option Error) :
  0 <= mask sq < 256 -> Query o sq = (o', sq', e) -> 0 <= mask sq' < 256.
Proof.
  intros Hm HQ.
  assert (G : mask sq' = mask sq \/ mask sq' = Z.lor (mask sq) (flag (category o))).
  { destruct o; unfold_query; unfold set_mask, Append in HQ;
      repeat case_match; simplify_eq; cbn [mask category flag]; auto. }
  destruct G as [->| ->]; [assumption | now apply lor_flag_range].
Qed.

(** Two valid options applied one after the other to a fresh container. *)
Lemma Query_twice (o1 o2 : SearchQuerier) :
  validPayload o1 = true -> validPayload o2 = true ->
  (category o1 = category o2 -> second_is_duplicate o1 o2)
  /\ (category o1 <> category o2 -> both_succeed o1 o2).
Proof.
  intros Hv1 Hv2.
  destruct (Query_valid o1 fresh (mask_set_fresh _) Hv1)
    as (o1' & new & HQ1 & _ & _).
  cbn [queries mask fresh] in HQ1. split; intros Hc.
  - destruct (Query_duplicate o2 {| queries := [] ++ new;
                                   mask := Z.lor 0 (flag (category o1)) |})
      as (e & HQ2 & Hd & _ & Hs).
    + rewrite mask_set_after_first. now apply bool_decide_eq_true.
    + eexists o1', _, e. repeat split; eassumption.
  - destruct (Query_valid o2 {| queries := [] ++ new;
                               mask := Z.lor 0 (flag (category o1)) |})
      as (o2' & new2 & HQ2 & _ & _); [|assumption|].
    + rewrite mask_set_after_first. now apply bool_decide_eq_false.
    + eexists o1', _, o2', _. split; eassumption.
Qed.

(** C1: two options of one category (the four location variants count as
    one) with valid payloads, applied to a fresh container in either
    order: the first application succeeds and the second is rejected as a
    duplicate; two valid options of different categories both succeed, in
    either order. A payload is valid when it passes the checks of its
    option, which every payload within the constraints of the
    specification does ([specValid_validPayload]). *)
Theorem C1_mutual_exclusion (o1 o2 : SearchQuerier) :
  validPayload o1 = true -> validPayload o2 = true ->
  (category o1 = category o2 ->
   second_is_duplicate o1 o2 /\ second_is_duplicate o2 o1)
  /\ (category o1 <> category o2 ->
      both_succeed o1 o2 /\ both_succeed o2 o1).
Proof.
  intros Hv1 Hv2.
  destruct (Query_twice o1 o2 Hv1 Hv2) as [Hsame Hdiff].
  destruct (Query_twice o2 o1 Hv2 Hv1) as [Hsame' Hdiff'].
  split; intros Hc; split; auto.
Qed.

(** C2, at the failing input: a name with coordinates out of range, applied
    to a fresh container, is rejected as an invalid value, and yet the
    container now holds the [location] element. *)
Theorem C2_failed_hint_keeps_location :
  exists e,
    Query (SearchLocationCoordinates "Delft" 91 0) fresh
    = (SearchLocationCoordinates "Delft" 91 0,
       {| queries := [{| Name := "location"; Value := "Delft" |}];
          mask := 0 |},
       Some e)
    /\ InvalidValue e = true.
Proof. eexists. split; reflexivity. Qed.

(** C10: a failing call leaves the conflict flags as they were, so after a
    payload was rejected as invalid, a valid option of the same category
    is still accepted. *)
Theorem C10_flags_preserved_on_failure (o : SearchQuerier) (sq : SearchQuery)
  (o' : SearchQuerier) (sq' : SearchQuery) (e : Error) :
  Query o sq = (o', sq', Some e) ->
  mask sq' = mask sq
  /\ (InvalidValue e = true ->
      forall o2, category o2 = category o -> validPayload o2 = true ->
      exists o2' sq2, Query o2 sq' = (o2', sq2, None)).
Proof.
  intros HQ. destruct (Query_failure _ _ _ _ _ HQ) as (_ & Hmask & _).
  split; [exact Hmask|]. intros Hi o2 Hc Hv.
  pose proof (Query_failure_kind _ _ _ _ _ HQ) as Hk.
  destruct (mask_set sq (flag (category o))) eqn:Hm.
  - destruct Hk as [_ Hk]. congruence.
  - destruct (Query_valid o2 sq') as (o2' & new & HQ2 & _); [|assumption|].
    + rewrite Hc. unfold mask_set in *. now rewrite Hmask.
    + eexists _, _. exact HQ2.
Qed.
End QueryFacts.

(** C6, refuted: neither an empty location name nor an empty list of
    terms is rejected. *)
Lemma C6_empty_payload_not_rejected :
  (~ exists e, snd (SearchLocation_Query "" fresh) = Some e)
  /\ (~ exists e, snd (SearchTerms_Query [] fresh) = Some e).
Proof. split; intros [e He]; discriminate He. Qed.

(** C6, amended: an empty location name and an empty list of terms are
    both accepted on a fresh container; each appends its element with an
    empty value and sets its flag. *)
Theorem C6_empty_payload_accepted :
  SearchLocation_Query "" fresh
  = ({| queries := [{| Name := "location"; Value := "" |}];
        mask := searchBitMaskLocation |}, None)
  /\ SearchTerms_Query [] fresh
     = ([], {| queries := [{| Name := "term"; Value := "" |}];
               mask := searchBitMaskTerm |}, None).
Proof. split; reflexivity. Qed.

(** C7: on a fresh container [Limit(n)] succeeds, appending
    [limit=decimal(n)], exactly when [0 <= n <= 20], and [Radius(n)]
    succeeds, appending [radius_filter=decimal(n)], exactly when
    [0 <= n <= 40000]; otherwise each fails with an invalid-value error and
    appends nothing. *)
Theorem C7_numeric_range (n : Z) :
  (0 <= n <= 20 ->
   SearchLimit_Query n fresh
   = ({| queries := [{| Name := "limit"; Value := Itoa n |}];
         mask := searchBitMaskLimit |}, None))
  /\ (~ 0 <= n <= 20 ->
      exists e, SearchLimit_Query n fresh = (fresh, Some e)
                /\ InvalidValue e = true /\ DuplicateOption e = false)
  /\ (0 <= n <= 40000 ->
      SearchRadius_Query n fresh
      = ({| queries := [{| Name := "radius_filter"; Value := Itoa n |}];
            mask := searchBitMaskRadius |}, None))
  /\ (~ 0 <= n <= 40000 ->
      exists e, SearchRadius_Query n fresh = (fresh, Some e)
                /\ InvalidValue e = true /\ DuplicateOption e = false).
Proof.
  unfold SearchLimit_Query, SearchRadius_Query.
  rewrite !mask_set_fresh.
  repeat split; intros Hn;
    destruct (Z.ltb_spec n 0); try lia;
    try (destruct (Z.gtb_spec n 20); try lia);
    try (destruct (Z.gtb_spec n 40000); try lia);
    cbn [orb]; try reflexivity;
    eexists; (split; [reflexivity | split; reflexivity]).
Qed.

Lemma C7_witness :
  snd (SearchLimit_Query 20 fresh) = None
  /\ (exists e, SearchLimit_Query 25 fresh = (fresh, Some e)
                /\ InvalidValue e = true /\ DuplicateOption e = false)
  /\ snd (SearchRadius_Query 40000 fresh) = None
  /\ (exists e, SearchRadius_Query 40001 fresh = (fresh, Some e)
                /\ InvalidValue e = true /\ DuplicateOption e = false).
Proof.
  split; [|split; [|split]].
  - now rewrite (proj1 (C7_numeric_range 20) ltac:(lia)).
  - apply (proj1 (proj2 (C7_numeric_range 25))). lia.
  - now rewrite (proj1 (proj2 (proj2 (C7_numeric_range 40000))) ltac:(lia)).
  - apply (proj2 (proj2 (proj2 (C7_numeric_range 40001)))). lia.
Defined.

(** C9, at the failing input: a successful [Terms] application rewrites
    the caller's list, here ["a b"] into ["a+b"]; in general the caller is
    left with the list in which every space is a plus, unless the call was
    rejected. *)
Theorem C9_terms_rewritten_in_place :
  SearchTerms_Query ["a b"] fresh
  = (["a+b"], {| queries := [{| Name := "term"; Value := "a+b" |}];
                 mask := searchBitMaskTerm |}, None)
  /\ forall st sq,
       fst (fst (SearchTerms_Query st sq))
       = if mask_set sq searchBitMaskTerm then st
         else map Replace_space_plus st.
Proof.
  split; [reflexivity|]. intros st sq. unfold SearchTerms_Query.
  destruct (mask_set sq searchBitMaskTerm); cbn [fst]; [reflexivity|].
  apply SearchTerms_loop_spec.
Qed.

Lemma C1_witness :
  (second_is_duplicate (SearchCoordinates 0 0) (SearchBounds 0 0 1 1)
   /\ second_is_duplicate (SearchBounds 0 0 1 1) (SearchCoordinates 0 0))
  /\ (both_succeed (SearchLimit 1) (SearchDeals false)
      /\ both_succeed (SearchDeals false) (SearchLimit 1)).
Proof.
  split.
  - apply (C1_mutual_exclusion (SearchCoordinates 0 0) (SearchBounds 0 0 1 1));
      reflexivity.
  - apply (C1_mutual_exclusion (SearchLimit 1) (SearchDeals false));
      [reflexivity | reflexivity | discriminate].
Defined.

Lemma C10_witness :
  exists o2' sq2,
    Query (SearchRadius 40000)
      {| queries := [{| Name := "limit"; Value := "1" |}];
         mask := searchBitMaskLimit |} = (o2', sq2, None).
Proof.
  apply (proj2 (C10_flags_preserved_on_failure (SearchRadius 40001)
                  {| queries := [{| Name := "limit"; Value := "1" |}];
                     mask := searchBitMaskLimit |}
                  (SearchRadius 40001) _ _ eq_refl) eq_refl
               (SearchRadius 40000));
    reflexivity.
Defined.

(** ** Sorting the container *)

Lemma ltb_leb (a b : string) : String.ltb a b = true -> String.leb a b = true.
Proof. unfold String.ltb, String.leb. now destruct (String.compare a b). Qed.

Lemma ltb_false_leb (a b : string) :
  String.ltb a b = false -> String.leb b a = true.
Proof.
  unfold String.ltb, String.leb. rewrite (String.compare_antisym b a).
  now destruct (String.compare a b).
Qed.

Lemma lookup_prefix_fst {A} (l : list A) (y x : A) (s : list A) :
  (l ++ y :: x :: s) !! length l = Some y.
Proof. now rewrite list_lookup_middle. Qed.

Lemma lookup_prefix_snd {A} (l : list A) (y x : A) (s : list A) :
  (l ++ y :: x :: s) !! S (length l) = Some x.
Proof.
  rewrite lookup_app_r by lia.
  now replace (S (length l) - length l)%nat with 1%nat by lia.
Qed.

Lemma swap_adjacent {A} (l : list A) (y x : A) (s : list A) :
  <[length l := x]> (<[S (length l) := y]> (l ++ y :: x :: s))
  = l ++ x :: y :: s.
Proof.
  replace (S (length l)) with (length l + 1)%nat by lia.
  rewrite insert_app_r. cbn [insert list_insert].
  replace (length l) with (length l + 0)%nat at 1 by lia.
  now rewrite insert_app_r.
Qed.

(** The inner loop, started on the element after a prefix, leaves the
    prefix with that element inserted. *)
Lemma insertionSort_inner_spec (rp : list searchQueryElement) :
  forall x s m,
    insertionSort_inner {| queries := reverse rp ++ x :: s; mask := m |}
      0 (length rp)
    = Some {| queries := reverse (insert_rev x rp) ++ s; mask := m |}.
Proof.
  induction rp as [|y rp IH]; intros x s m.
  - reflexivity.
  - cbn [length insertionSort_inner insert_rev].
    replace (0 <? S (length rp))%nat with true by reflexivity.
    unfold Less, Swap. cbn [queries mask].
    rewrite reverse_cons, <- app_assoc. cbn [app].
    rewrite <- (length_reverse rp).
    rewrite lookup_prefix_fst, lookup_prefix_snd, swap_adjacent.
    destruct (String.ltb (Name x) (Name y)).
    + rewrite (length_reverse rp), IH.
      now rewrite reverse_cons, <- app_assoc.
    + now rewrite !reverse_cons, <- !app_assoc.
Qed.

Lemma length_insert_rev (x : searchQueryElement) (rp : list searchQueryElement) :
  length (insert_rev x rp) = S (length rp).
Proof.
  induction rp as [|y rp IH]; cbn [insert_rev]; [reflexivity|].
  destruct (String.ltb (Name x) (Name y)); cbn [length]; now rewrite ?IH.
Qed.

Lemma insertionSort_outer_spec (rest : list searchQueryElement) :
  forall rp m,
    insertionSort_outer {| queries := reverse rp ++ rest; mask := m |}
      0 (length rp) (length rest)
    = Some {| queries := reverse (insert_all rest rp); mask := m |}.
Proof.
  induction rest as [|x rest IH]; intros rp m;
    cbn [length insertionSort_outer insert_all fold_left].
  - now rewrite app_nil_r.
  - rewrite insertionSort_inner_spec, <- (length_insert_rev x rp). apply IH.
Qed.

Lemma insertionSort_spec (q : SearchQuery) :
  insertionSort q 0 (Len q)
  = Some {| queries := match queries q with
                              | [] => []
                              | x :: rest => reverse (insert_all rest [x])
                              end;
                   mask := mask q |}.
Proof.
  destruct q as [[|x rest] m]; unfold insertionSort, Len; cbn [queries mask].
  - reflexivity.
  - cbn [length]. replace (S (length rest) - 1)%nat with (length rest) by lia.
    apply (insertionSort_outer_spec rest [x] m).
Qed.

Lemma insert_rev_HdRel (y x : searchQueryElement) rp :
  name_le x y -> HdRel (flip name_le) y rp ->
  HdRel (flip name_le) y (insert_rev x rp).
Proof.
  intros Hxy Hy. destruct rp as [|z rp]; cbn [insert_rev].
  - now constructor.
  - destruct (String.ltb (Name x) (Name z)); constructor;
      [now inversion Hy | exact Hxy].
Qed.

Lemma insert_rev_Sorted (x : searchQueryElement) rp :
  Sorted (flip name_le) rp -> Sorted (flip name_le) (insert_rev x rp).
Proof.
  induction rp as [|y rp IH]; intros Hs; cbn [insert_rev].
  - repeat constructor.
  - inversion Hs as [|? ? Hs' Hh]; subst.
    destruct (String.ltb (Name x) (Name y)) eqn:Hlt.
    + constructor; [now apply IH|].
      apply insert_rev_HdRel; [|assumption].
      now apply ltb_leb.
    + constructor; [assumption|]. constructor.
      now apply ltb_false_leb.
Qed.

Lemma insert_all_Sorted rest :
  forall rp, Sorted (flip name_le) rp ->
             Sorted (flip name_le) (insert_all rest rp).
Proof.
  induction rest as [|x rest IH]; intros rp Hs; cbn [insert_all fold_left].
  - assumption.
  - apply IH, insert_rev_Sorted, Hs.
Qed.

(** *** Whatever routine drives the interface

    A sorting routine reaches the container through [Swap] only, and ends
    when [Less] finds no element out of order. That alone gives the
    postcondition, and the insertion sort is one such routine. *)

Lemma Swap_Permutation (q q' : SearchQuery) (i j : nat) :
  Swap q i j = Some q' ->
  Permutation (queries q') (queries q) /\ mask q' = mask q.
Proof.
  unfold Swap. destruct (queries q !! i) as [x|] eqn:Hi; [|discriminate].
  destruct (queries q !! j) as [y|] eqn:Hj; [|discriminate].
  intros [= <-]. cbn [queries mask]. split; [|reflexivity].
  now apply Permutation_insert_swap.
Qed.

Lemma swapped_Permutation (q q' : SearchQuery) :
  swapped q q' -> Permutation (queries q') (queries q) /\ mask q' = mask q.
Proof.
  induction 1 as [q|q i j q1 q2 HS _ [IHp IHm]]; [now split|].
  destruct (Swap_Permutation _ _ _ _ HS) as [Hp Hm].
  split; [now rewrite IHp | congruence].
Qed.

Lemma swapped_trans (q1 q2 q3 : SearchQuery) :
  swapped q1 q2 -> swapped q2 q3 -> swapped q1 q3.
Proof.
  induction 1 as [|q i j qa qb HS _ IH]; [easy|].
  intros H3. eapply swapped_step; [exact HS | now apply IH].
Qed.

Lemma in_order_names_sorted (q : SearchQuery) :
  in_order q -> names_sorted (queries q).
Proof.
  unfold in_order, names_sorted, Less. generalize (queries q) as l. clear q.
  induction l as [|x l IH]; intros Hord; [constructor|].
  cbn [map]. constructor.
  - apply IH. intros i. exact (Hord (S i)).
  - destruct l as [|y l]; constructor.
    specialize (Hord 0%nat). cbn in Hord.
    apply ltb_false_leb. destruct (String.ltb (Name y) (Name x)); congruence.
Qed.

Lemma swapped_in_order_postcondition (q q' : SearchQuery) :
  swapped q q' -> in_order q' ->
  names_sorted (queries q') /\ Permutation (queries q') (queries q)
  /\ mask q' = mask q.
Proof.
  intros Hs Ho. destruct (swapped_Permutation _ _ Hs).
  split; [now apply in_order_names_sorted | now split].
Qed.

Lemma insertionSort_inner_swapped (a j : nat) :
  forall q q', insertionSort_inner q a j = Some q' -> swapped q q'.
Proof.
  induction j as [|j IH]; intros q q'; cbn [insertionSort_inner].
  - intros [= <-]. constructor.
  - destruct (a <? S j)%nat; [|intros [= <-]; constructor].
    destruct (Less q (S j) j) as [[|]|]; [|intros [= <-]; constructor|discriminate].
    destruct (Swap q (S j) j) as [q1|] eqn:HS; [|discriminate].
    intros Hin. eapply swapped_step; [exact HS | now apply IH].
Qed.

Lemma insertionSort_outer_swapped (a n : nat) :
  forall i q q', insertionSort_outer q a i n = Some q' -> swapped q q'.
Proof.
  induction n as [|n IH]; intros i q q'; cbn [insertionSort_outer].
  - intros [= <-]. constructor.
  - destruct (insertionSort_inner q a i) as [q1|] eqn:Hin; [|discriminate].
    intros Hout. eapply swapped_trans.
    + eapply insertionSort_inner_swapped, Hin.
    + eapply IH, Hout.
Qed.

Lemma insertionSort_swapped (q q' : SearchQuery) (a b : nat) :
  insertionSort q a b = Some q' -> swapped q q'.
Proof. apply insertionSort_outer_swapped. Qed.

(** The list the insertion sort leaves has non-decreasing names. *)
Lemma sorted_result_names (x : searchQueryElement) rest :
  names_sorted (reverse (insert_all rest [x])).
Proof.
  unfold names_sorted. apply (Sorted_fmap Name name_le string_le).
  - intros a b Hab. exact Hab.
  - apply (Sorted_reverse (flip name_le)), insert_all_Sorted.
    repeat constructor.
Qed.

Lemma leb_ltb_false (a b : string) :
  String.leb a b = true -> String.ltb b a = false.
Proof.
  unfold String.ltb, String.leb. rewrite (String.compare_antisym b a).
  now destruct (String.compare a b).
Qed.

Lemma names_sorted_in_order (q : SearchQuery) :
  names_sorted (queries q) -> in_order q.
Proof.
  unfold in_order, names_sorted, Less. generalize (queries q) as l. clear q.
  induction l as [|x l IH]; intros Hs i; [discriminate|].
  cbn [map] in Hs. inversion Hs as [|? ? Hs' Hh]; subst.
  destruct i as [|i]; [|exact (IH Hs' i)].
  destruct l as [|y l]; [discriminate|].
  cbn. inversion Hh as [|? ? Hxy]; subst.
  now rewrite (leb_ltb_false _ _ Hxy).
Qed.

Lemma insertionSort_contract (q : SearchQuery) :
  exists q',
    insertionSort q 0 (Len q) = Some q' /\ swapped q q' /\ in_order q'.
Proof.
  eexists. split; [apply insertionSort_spec|].
  split; [eapply insertionSort_swapped, insertionSort_spec|].
  apply names_sorted_in_order. cbn [queries].
  destruct (queries q) as [|x rest]; [constructor | apply sorted_result_names].
Qed.

(** The insertion sort as the routine of the examples. *)
#[local] Instance insertion_sort : SortRoutine := {|
  sort_Sort q := insertionSort q 0 (Len q);
  sort_Sort_contract := insertionSort_contract
|}.

Example Sort_and_String :
  option_map SearchQuery_String
    (Sort {| queries := [{| Name := "term"; Value := "bar" |};
                         {| Name := "limit"; Value := "1" |};
                         {| Name := "ll"; Value := "0,0" |};
                         {| Name := "Limit"; Value := "2" |}];
             mask := 0 |})
  = Some "Limit=2&limit=1&ll=0,0&term=bar".
Proof. reflexivity. Qed.

(** C8: [Sort] returns; afterwards the names are non-decreasing in
    byte-wise order and the elements are a permutation of the elements
    before the call. This holds for every routine that [sort.Sort] may be,
    and of every container reached by calls of [Swap] in which no element is
    [Less] than the one before it. *)
Theorem C8_sort_postcondition `{SortRoutine} (q : SearchQuery) :
  (exists q',
     Sort q = Some q'
     /\ names_sorted (queries q')
     /\ Permutation (queries q') (queries q)
     /\ mask q' = mask q)
  /\ forall q', swapped q q' -> in_order q' ->
       names_sorted (queries q')
       /\ Permutation (queries q') (queries q)
       /\ mask q' = mask q.
Proof.
  assert (G : forall q', swapped q q' -> in_order q' ->
                names_sorted (queries q')
                /\ Permutation (queries q') (queries q)
                /\ mask q' = mask q).
  { intros q' Hsw Hord. destruct (swapped_Permutation _ _ Hsw) as [Hp Hm].
    split; [now apply in_order_names_sorted | now split]. }
  split; [|exact G].
  destruct (sort_Sort_contract q) as (q' & HS & Hsw & Hord).
  exists q'. split; [exact HS | now apply G].
Qed.

Lemma C8_witness :
  exists q',
    @Sort insertion_sort
      {| queries := [{| Name := "term"; Value := "bar" |};
                     {| Name := "limit"; Value := "1" |};
                     {| Name := "term"; Value := "foo" |};
                     {| Name := "Limit"; Value := "2" |}];
         mask := 3 |} = Some q'
    /\ names_sorted (queries q')
    /\ Permutation (queries q')
         [{| Name := "term"; Value := "bar" |};
          {| Name := "limit"; Value := "1" |};
          {| Name := "term"; Value := "foo" |};
          {| Name := "Limit"; Value := "2" |}]
    /\ mask q' = 3.
Proof.
  exact (proj1 (@C8_sort_postcondition insertion_sort
                  {| queries := [{| Name := "term"; Value := "bar" |};
                                 {| Name := "limit"; Value := "1" |};
                                 {| Name := "term"; Value := "foo" |};
                                 {| Name := "Limit"; Value := "2" |}];
                     mask := 3 |})).
Defined.

(** ** Signing *)

(** What [Sign] relies on when it sorts the extended container. *)
Lemma Sort_append_five `{SortRoutine} (l : list searchQueryElement) (m : Z) :
  exists sorted,
    Sort {| queries := l; mask := m |} = Some sorted
    /\ names_sorted (queries sorted)
    /\ Permutation (queries sorted) l
    /\ mask sorted = m.
Proof.
  destruct (sort_Sort_contract {| queries := l; mask := m |})
    as (sorted & HS & Hsw & Hord).
  exists sorted. split; [exact HS|].
  now apply swapped_in_order_postcondition in Hsw.
Qed.

Section SignFacts.
Context `{Crypto} `{RandSource} `{SortRoutine}.

(** C4: [Sign] appends the five OAuth elements, sorts, signs the base
    string built from the method, the encoded URL and the encoded
    serialization of the sorted container, and appends [oauth_signature]
    after everything else: the last element carries that name and the
    container has grown by six elements. *)
Theorem C4_sign (yoa : oauth) (method url : string) (elements : SearchQuery)
  (now : Z) (rs : Rand) :
  let five :=
    [{| Name := "oauth_consumer_key"; Value := ConsumerKey yoa |};
     {| Name := "oauth_nonce"; Value := fst (nonce 30 rs) |};
     {| Name := "oauth_signature_method"; Value := "HMAC-SHA1" |};
     {| Name := "oauth_timestamp"; Value := Itoa now |};
     {| Name := "oauth_token"; Value := Token yoa |}] in
  exists sorted,
    Sort {| queries := queries elements ++ five; mask := mask elements |}
    = Some sorted
    /\ names_sorted (queries sorted)
    /\ Permutation (queries sorted) (queries elements ++ five)
    /\ let base := (method ++ "&" ++ percentEncode url ++ "&"
                    ++ percentEncode (serialize (queries sorted)))%string in
       let signature :=
         {| Name := "oauth_signature";
            Value := percentEncode
                       (base64_EncodeToString
                          (hmac_sha1 (hashKey yoa) base)) |} in
       let signed := {| queries := queries sorted ++ [signature];
                        mask := mask elements |} in
       Sign yoa method url elements now rs = Some (signed, snd (nonce 30 rs))
       /\ last (queries signed) = Some signature
       /\ length (queries signed) = (length (queries elements) + 6)%nat
       /\ String.length (fst (nonce 30 rs)) = 30%nat.
Proof.
  intros five.
  destruct (Sort_append_five (queries elements ++ five) (mask elements))
    as (sorted & HS & Hsorted & Hperm & Hmask).
  exists sorted. split; [exact HS|]. split; [exact Hsorted|].
  split; [exact Hperm|]. cbn zeta. cbn [queries mask].
  split; [|split; [|split]].
  - unfold Sign, Append. cbn [queries mask].
    destruct (nonce 30 rs) as [n rs'] eqn:Hn. cbn [fst snd] in *.
    rewrite <- !app_assoc. cbn [app]. subst five. cbn [fst] in HS.
    rewrite HS. rewrite SearchQuery_String_spec, Hmask. reflexivity.
  - apply last_snoc.
  - rewrite length_app, (Permutation_length Hperm), length_app. simpl. lia.
  - unfold nonce. now rewrite nonce_loop_length.
Qed.
End SignFacts.

(** A signed request under the signature stub, a fixed clock and the
    example random source. *)
Example Sign_example :
  option_map (fun r => SearchQuery_String (fst r))
    (Sign {| ConsumerKey := "ck"; Token := "tk"; hashKey := "cs&ts" |}
       "GET" "http://host/v2"
       {| queries := [{| Name := "term"; Value := "bar" |}]; mask := 1 |}
       1446163200 5%N)
  = Some ("oauth_consumer_key=ck&oauth_nonce=fmtAHOV29gnuBIPW3ahovCJQX4bipw"
          ++ "&oauth_signature_method=HMAC-SHA1&oauth_timestamp=1446163200"
          ++ "&oauth_token=tk&term=bar&oauth_signature="
          ++ "cs%26ts%7CGET%26http%253A%252F%252Fhost%252Fv2%26"
          ++ "oauth_consumer_key%253Dck%2526"
          ++ "oauth_nonce%253DfmtAHOV29gnuBIPW3ahovCJQX4bipw%2526"
          ++ "oauth_signature_method%253DHMAC-SHA1%2526"
          ++ "oauth_timestamp%253D1446163200%2526"
          ++ "oauth_token%253Dtk%2526term%253Dbar")%string.
Proof. vm_compute. reflexivity. Qed.

(** * Further properties of the package *)

(** ** The percent-encoder *)

Local Open Scope string_scope.
Local Open Scope Z_scope.

Lemma all_bytes_append (p : ascii -> bool) (a b : string) :
  all_bytes p (a ++ b) = all_bytes p a && all_bytes p b.
Proof.
  induction a as [|c a IH]; cbn [append all_bytes]; [reflexivity|].
  now rewrite IH, andb_assoc.
Qed.

Lemma encode_byte_url_safe (c : ascii) : all_bytes url_safe (encode_byte c) = true.
Proof. destruct c as [[] [] [] [] [] [] [] []]; reflexivity. Qed.

Lemma percentEncode_runes (source : string) :
  percentEncode source
  = String.concat "" (map (fun v => encode_byte (byte v)) (range_runes source)).
Proof. unfold percentEncode. now rewrite fold_percentEncode_body. Qed.

Lemma concat_empty_all_bytes (p : ascii -> bool) (l : list string) :
  Forall (fun x => all_bytes p x = true) l ->
  all_bytes p (String.concat "" l) = true.
Proof.
  induction 1 as [|x l Hx _ IH]; [reflexivity|].
  destruct l as [|y l]; [exact Hx|].
  change (String.concat "" (x :: y :: l)) with (x ++ "" ++ String.concat "" (y :: l)).
  cbn [append]. now rewrite all_bytes_append, Hx, IH.
Qed.

Lemma encoded_runes_url_safe (runes : list Z) :
  all_bytes url_safe
    (String.concat "" (map (fun v => encode_byte (byte v)) runes)) = true.
Proof.
  apply concat_empty_all_bytes.
  induction runes as [|v l IH]; cbn [map]; constructor;
    [apply encode_byte_url_safe | exact IH].
Qed.

(** X1: whatever the input, the output of [percentEncode] consists of
    unreserved bytes and percent signs only: no space, comma, ampersand,
    equals sign or byte above 0x7F ever reaches the output. *)
Theorem percentEncode_url_safe (source : string) :
  all_bytes url_safe (percentEncode source) = true.
Proof. rewrite percentEncode_runes. apply encoded_runes_url_safe. Qed.

(** X2: on input whose bytes are all below 0x80 [percentEncode] is the
    byte-wise encoding: unreserved bytes pass, a comma is [%252C], every
    other byte is [%XX] in uppercase hexadecimal. *)
Theorem percentEncode_ascii_contract (s : string) :
  is_ascii s = true -> percentEncode s = encode s.
Proof.
  intros Hs. rewrite percentEncode_runes, (range_runes_ascii s Hs).
  apply concat_encode_bytes.
Qed.

Lemma percentEncode_ascii_contract_witness :
  percentEncode "a b,c/~" = "a%20b%252Cc%2F~".
Proof.
  rewrite (percentEncode_ascii_contract "a b,c/~" eq_refl). reflexivity.
Defined.

Lemma is_ascii_append (a b : string) :
  is_ascii (a ++ b) = is_ascii a && is_ascii b.
Proof.
  induction a as [|c a IH]; cbn [append is_ascii]; [reflexivity|].
  now rewrite IH, andb_assoc.
Qed.

Lemma encode_append (a b : string) : encode (a ++ b) = encode a ++ encode b.
Proof.
  induction a as [|c a IH]; cbn [append encode]; [reflexivity|].
  now rewrite IH, append_assoc.
Qed.

Lemma range_runes_ascii_append (a b : string) :
  is_ascii a = true ->
  range_runes (a ++ b) = (map ord (list_ascii_of_string a) ++ range_runes b)%list.
Proof.
  induction a as [|c a IH]; cbn [append is_ascii]; [reflexivity|].
  intros [Hc Ha]%andb_prop. cbn [range_runes list_ascii_of_string map app].
  unfold decoderune, runeSelf. rewrite Hc. now rewrite IH.
Qed.

Lemma concat_empty_app (l1 l2 : list string) :
  String.concat "" (l1 ++ l2)%list = String.concat "" l1 ++ String.concat "" l2.
Proof.
  induction l1 as [|x l1 IH]; [reflexivity|].
  cbn [app]. destruct l1 as [|y l1].
  - cbn [app String.concat]. destruct l2; cbn; [now rewrite append_nil_r | reflexivity].
  - change (String.concat "" (x :: (y :: l1) ++ l2)%list)
      with (x ++ "" ++ String.concat "" ((y :: l1) ++ l2)%list).
    rewrite IH. cbn [String.concat append]. now rewrite append_assoc.
Qed.

(** X3: an all-ASCII prefix is encoded on its own: the encoding of
    [a ++ b] is the encoding of [a] followed by the encoding of [b],
    whatever bytes [b] holds. *)
Theorem percentEncode_ascii_prefix (a b : string) :
  is_ascii a = true -> percentEncode (a ++ b) = percentEncode a ++ percentEncode b.
Proof.
  intros Ha. rewrite !percentEncode_runes, range_runes_ascii_append by assumption.
  rewrite map_app, concat_empty_app. f_equal.
  now rewrite (range_runes_ascii a Ha).
Qed.

Lemma percentEncode_ascii_prefix_witness :
  percentEncode ("q=1&" ++ String "195" (String "169" ""))
  = percentEncode "q=1&" ++ percentEncode (String "195" (String "169" "")).
Proof. apply (percentEncode_ascii_prefix "q=1&"). reflexivity. Defined.

(** X4: the encoder is not injective: a comma and the three bytes [%2C]
    have the same encoding, wherever they stand after an all-ASCII
    prefix. *)
Theorem percentEncode_comma_collision (a b : string) :
  is_ascii a = true ->
  percentEncode (a ++ "," ++ b) = percentEncode (a ++ "%2C" ++ b)
  /\ a ++ "," ++ b <> a ++ "%2C" ++ b.
Proof.
  intros Ha. split.
  - assert (E : forall x, percentEncode (a ++ x)
                          = percentEncode a ++ percentEncode x).
    { intros x.
      rewrite !percentEncode_runes, range_runes_ascii_append by assumption.
      rewrite map_app, concat_empty_app. f_equal.
      now rewrite (range_runes_ascii a Ha). }
    rewrite !E.
    replace (percentEncode ("%2C" ++ b)) with (percentEncode ("," ++ b))
      by reflexivity.
    reflexivity.
  - induction a as [|c a IH]; cbn [append].
    + discriminate.
    + cbn [is_ascii] in Ha. apply andb_prop in Ha as [_ Ha].
      intros [= E]. now apply IH.
Qed.

Lemma percentEncode_comma_collision_witness :
  percentEncode "a,b" = percentEncode "a%2Cb" /\ "a,b" <> "a%2Cb".
Proof. apply (percentEncode_comma_collision "a" "b"). reflexivity. Defined.

Lemma percentDecode_encode_byte (c : ascii) (rest : string) :
  Ascii.eqb c "," = false ->
  percentDecode (encode_byte c ++ rest) = String c (percentDecode rest).
Proof.
  destruct c as [[] [] [] [] [] [] [] []]; intros Hc;
    first [discriminate Hc | reflexivity].
Qed.

Lemma percentDecode_encode (s : string) :
  comma_free s = true -> percentDecode (encode s) = s.
Proof.
  induction s as [|c s IH]; cbn [comma_free encode]; [reflexivity|].
  intros [Hc Hs]%andb_prop. apply negb_true_iff in Hc.
  now rewrite percentDecode_encode_byte, IH.
Qed.

(** X5: standard percent-decoding reads an encoded all-ASCII string
    without a comma back as the string itself; on such strings the encoder
    is therefore injective. *)
Theorem percentEncode_round_trip (s : string) :
  is_ascii s = true -> comma_free s = true ->
  percentDecode (percentEncode s) = s
  /\ forall s', is_ascii s' = true -> comma_free s' = true ->
       percentEncode s' = percentEncode s -> s' = s.
Proof.
  intros Ha Hc.
  assert (G : forall x, is_ascii x = true -> comma_free x = true ->
                        percentDecode (percentEncode x) = x).
  { intros x Hx Hcx. rewrite percentEncode_runes, (range_runes_ascii x Hx).
    rewrite concat_encode_bytes. now apply percentDecode_encode. }
  split; [now apply G|]. intros s' Ha' Hc' E.
  rewrite <- (G s' Ha' Hc'), E. now apply G.
Qed.

Lemma percentEncode_round_trip_witness :
  percentDecode (percentEncode "GET&http://api/v2?x=a b") = "GET&http://api/v2?x=a b".
Proof.
  apply (proj1 (percentEncode_round_trip "GET&http://api/v2?x=a b"
                  eq_refl eq_refl)).
Defined.

(** ** Nonce and coordinates *)

Lemma nonce_loop_state `{RandSource} (count : nat) :
  forall result rs,
    snd (nonce_loop count result rs)
    = Nat.iter count (fun s => snd (rand_Int s)) rs.
Proof.
  induction count as [|count IH]; intros result rs; [reflexivity|].
  cbn [nonce_loop]. destruct (rand_Int rs) as [r rs'] eqn:Hr.
  rewrite IH, Nat.iter_succ_r. now rewrite Hr.
Qed.

(** X6: [nonce(length)] returns exactly [length] characters (none when
    [length] is not positive), each of them one of the sixty-two of
    [nonceCharacters], and draws from the random source exactly once per
    character. *)
Theorem nonce_shape `{RandSource} (length : Z) (rs : Rand) :
  String.length (fst (nonce length rs)) = Z.to_nat length
  /\ (forall c, In c (list_ascii_of_string (fst (nonce length rs)))
                -> In c (list_ascii_of_string nonceCharacters))
  /\ snd (nonce length rs)
     = Nat.iter (Z.to_nat length) (fun s => snd (rand_Int s)) rs.
Proof.
  split; [|split].
  - unfold nonce. now rewrite nonce_loop_length.
  - intros c. apply nonce_characters.
  - apply nonce_loop_state.
Qed.

Lemma SFcompare_antisym (a b : spec_float) :
  SFcompare b a = option_map CompOpp (SFcompare a b).
Proof.
  destruct a as [sa|sa| |sa ma ea], b as [sb|sb| |sb mb eb]; cbn [SFcompare];
    try destruct sa; try destruct sb; try reflexivity; cbn [option_map];
    change (Pos.compare_cont Eq mb ma) with (Pos.compare mb ma);
    change (Pos.compare_cont Eq ma mb) with (Pos.compare ma mb);
    rewrite (Z.compare_antisym ea eb), (Pos.compare_antisym ma mb);
    destruct (ea ?= eb)%Z; cbn [CompOpp]; try reflexivity;
    destruct (ma ?= mb)%positive; reflexivity.
Qed.

Lemma SFcompare_None (a b : spec_float) :
  SFcompare a b = None -> a = S754_nan \/ b = S754_nan.
Proof.
  destruct a as [sa|sa| |sa ma ea], b as [sb|sb| |sb mb eb]; cbn [SFcompare];
    auto; try destruct sa; try destruct sb; discriminate.
Qed.

Lemma is_nan_false_Prim2SF (x : float) :
  PrimFloat.is_nan x = false -> Prim2SF x <> S754_nan.
Proof.
  unfold PrimFloat.is_nan. rewrite FloatAxioms.eqb_spec. intros Hx E.
  rewrite E in Hx. discriminate Hx.
Qed.

Lemma is_nan_true_Prim2SF (x : float) :
  PrimFloat.is_nan x = true -> Prim2SF x = S754_nan.
Proof. intros Hx. unfold Prim2SF. now rewrite Hx. Qed.

(** A comparison with a bound that is a number fails exactly on a NaN or
    on a value on the other side of the bound. *)
Lemma ltb_false_iff (x b : float) :
  PrimFloat.is_nan b = false ->
  (PrimFloat.ltb x b = false
   <-> PrimFloat.is_nan x = true \/ PrimFloat.leb b x = true)
  /\ (PrimFloat.ltb b x = false
      <-> PrimFloat.is_nan x = true \/ PrimFloat.leb x b = true).
Proof.
  intros Hb. apply is_nan_false_Prim2SF in Hb.
  rewrite !ltb_spec, !leb_spec.
  destruct (PrimFloat.is_nan x) eqn:Hx.
  - apply is_nan_true_Prim2SF in Hx. rewrite Hx.
    split; (split; [now left|]); intros _; unfold SFltb;
      destruct (Prim2SF b); reflexivity.
  - apply is_nan_false_Prim2SF in Hx.
    split; (split; [intros Hlt; right | intros [Hn|Hle];
                                        [discriminate | now apply SFleb_SFltb]]).
    + unfold SFltb, SFleb in *. rewrite (SFcompare_antisym (Prim2SF x) (Prim2SF b)).
      destruct (SFcompare (Prim2SF x) (Prim2SF b)) as [[| |]|] eqn:Hc;
        cbn [option_map CompOpp]; try reflexivity; try discriminate.
      apply SFcompare_None in Hc as [Hc|Hc]; contradiction.
    + unfold SFltb, SFleb in *. rewrite (SFcompare_antisym (Prim2SF b) (Prim2SF x)).
      destruct (SFcompare (Prim2SF b) (Prim2SF x)) as [[| |]|] eqn:Hc;
        cbn [option_map CompOpp]; try reflexivity; try discriminate.
      apply SFcompare_None in Hc as [Hc|Hc]; contradiction.
Qed.

(** X7: [validLatitudeLongitude] accepts a latitude exactly when it is a
    NaN or lies in [-90, 90], and a longitude exactly when it is a NaN or
    lies in [-180, 180]: infinities and values beyond the bounds are
    rejected, a NaN never is. *)
Theorem validLatitudeLongitude_iff (latitude longitude : float) :
  validLatitudeLongitude latitude longitude = true
  <-> (PrimFloat.is_nan latitude = true
       \/ within (-90)%float latitude 90%float = true)
      /\ (PrimFloat.is_nan longitude = true
          \/ within (-180)%float longitude 180%float = true).
Proof.
  unfold validLatitudeLongitude, within.
  rewrite negb_true_iff, !orb_false_iff, !andb_true_iff.
  rewrite (proj1 (ltb_false_iff latitude (-90)%float eq_refl)).
  rewrite (proj2 (ltb_false_iff latitude 90%float eq_refl)).
  rewrite (proj1 (ltb_false_iff longitude (-180)%float eq_refl)).
  rewrite (proj2 (ltb_false_iff longitude 180%float eq_refl)).
  tauto.
Qed.

(** ** The container *)

Local Open Scope list_scope.

Lemma serialize_snoc (l : list searchQueryElement) (e : searchQueryElement) :
  serialize (l ++ [e])
  = match l with
    | [] => (Name e ++ "=" ++ Value e)%string
    | _ :: _ => (serialize l ++ "&" ++ Name e ++ "=" ++ Value e)%string
    end.
Proof.
  unfold serialize. induction l as [|x l IH]; [reflexivity|].
  cbn [app map]. destruct l as [|y l].
  - reflexivity.
  - change (String.concat "&" (?a :: map ?f ((y :: l) ++ [e])))
      with (a ++ "&" ++ String.concat "&" (map f ((y :: l) ++ [e])))%string.
    cbn [app map] in IH |- *.
    change (String.concat "&" (?a :: ?b :: ?r))
      with (a ++ "&" ++ String.concat "&" (b :: r))%string.
    rewrite IH. now rewrite !append_assoc.
Qed.

Lemma serialize_empty_iff (l : list searchQueryElement) :
  serialize l = "" <-> l = [].
Proof.
  split; [|now intros ->]. destruct l as [|e l]; [reflexivity|].
  intros E. apply (f_equal String.length) in E. exfalso. revert E.
  unfold serialize. cbn [map String.concat].
  destruct (map _ l); rewrite !length_append; cbn; lia.
Qed.

(** X8: [String] joins the elements as [name=value] with [&] between
    them; it is empty exactly on a container without elements, and after
    [Append] it is the former string followed by [&name=value] (or just
    [name=value] when the container was empty). *)
Theorem String_Append (q : SearchQuery) (name value : string) :
  SearchQuery_String q = serialize (queries q)
  /\ (SearchQuery_String q = "" <-> queries q = [])
  /\ SearchQuery_String (Append q name value)
     = match queries q with
       | [] => (name ++ "=" ++ value)%string
       | _ :: _ => (SearchQuery_String q ++ "&" ++ name ++ "=" ++ value)%string
       end.
Proof.
  rewrite !SearchQuery_String_spec. split; [reflexivity|].
  split; [apply serialize_empty_iff|].
  unfold Append. cbn [queries]. now rewrite serialize_snoc.
Qed.

Lemma lookup_None_iff {A} (l : list A) (i : nat) :
  l !! i = None <-> (length l <= i)%nat.
Proof. apply lookup_ge_None. Qed.

(** X9: [Less] and [Swap] panic exactly when one of the two indices is out
    of range; a [Swap] that returns keeps the length and the mask, permutes
    the elements, and is undone by the same [Swap]. *)
Theorem Swap_in_range (q : SearchQuery) (i j : nat) :
  (Less q i j = None <-> ~ (i < Len q /\ j < Len q)%nat)
  /\ (Swap q i j = None <-> ~ (i < Len q /\ j < Len q)%nat)
  /\ forall q', Swap q i j = Some q' ->
       Swap q' i j = Some q /\ Len q' = Len q /\ mask q' = mask q
       /\ Permutation (queries q') (queries q).
Proof.
  unfold Less, Swap, Len. destruct q as [l m]. cbn [queries mask].
  destruct (l !! i) as [x|] eqn:Hi, (l !! j) as [y|] eqn:Hj.
  - pose proof (lookup_lt_Some _ _ _ Hi). pose proof (lookup_lt_Some _ _ _ Hj).
    split; [split; [discriminate | intros Hn; exfalso; apply Hn; now split]|].
    split; [split; [discriminate | intros Hn; exfalso; apply Hn; now split]|].
    intros q' [= <-]. cbn [queries mask].
    assert (Hi' : <[j:=x]> (<[i:=y]> l) !! i = Some y).
    { destruct (decide (i = j)) as [->|Hij].
      - rewrite list_lookup_insert_eq by (rewrite length_insert; lia). congruence.
      - rewrite list_lookup_insert_ne by congruence.
        now rewrite list_lookup_insert_eq by lia. }
    assert (Hj' : <[j:=x]> (<[i:=y]> l) !! j = Some x).
    { rewrite list_lookup_insert_eq by (rewrite length_insert; lia). reflexivity. }
    rewrite Hi', Hj'. rewrite !length_insert.
    split; [|split; [reflexivity|split; [reflexivity|]]].
    + f_equal. f_equal. apply list_eq. intros n.
      rewrite !list_lookup_insert, !length_insert.
      repeat case_decide; destruct_and?; subst; congruence || lia.
    + now apply Permutation_insert_swap.
  - apply lookup_ge_None in Hj.
    split; [split; [lia|reflexivity]|]. split; [split; [lia|reflexivity]|].
    discriminate.
  - apply lookup_ge_None in Hi.
    split; [split; [lia|reflexivity]|]. split; [split; [lia|reflexivity]|].
    discriminate.
  - apply lookup_ge_None in Hi.
    split; [split; [lia|reflexivity]|]. split; [split; [lia|reflexivity]|].
    discriminate.
Qed.

Lemma Swap_in_range_witness :
  Swap {| queries := [{| Name := "a"; Value := "1" |};
                      {| Name := "b"; Value := "2" |}]; mask := 0 |} 1 0
  = Some {| queries := [{| Name := "b"; Value := "2" |};
                        {| Name := "a"; Value := "1" |}]; mask := 0 |}.
Proof.
  apply (proj2 (proj2 (Swap_in_range
                         {| queries := [{| Name := "b"; Value := "2" |};
                                        {| Name := "a"; Value := "1" |}];
                            mask := 0 |} 1 0)) _ eq_refl).
Defined.

Lemma ltb_lt (a b : string) :
  String.ltb a b = true <-> OrderedTypeEx.String_as_OT.lt a b.
Proof.
  unfold String.ltb. rewrite <- OrderedTypeEx.String_as_OT.cmp_lt.
  unfold OrderedTypeEx.String_as_OT.cmp.
  destruct (String.compare a b); split; congruence.
Qed.

Lemma ltb_trans (a b c : string) :
  String.ltb a b = true -> String.ltb b c = true -> String.ltb a c = true.
Proof.
  rewrite !ltb_lt. apply OrderedTypeEx.String_as_OT.lt_trans.
Qed.

Lemma ltb_irrefl (a : string) : String.ltb a a = false.
Proof.
  unfold String.ltb.
  pose proof (String.compare_antisym a a) as E.
  destruct (String.compare a a); try reflexivity; discriminate E.
Qed.

(** X10: on the positions of a container [Less] is a strict order of the
    kind [sort.Sort] asks for: no position is less than itself, the order
    is transitive, and two positions neither of which is less than the
    other carry the same name. *)
Theorem Less_strict_order (q : SearchQuery) (i j k : nat)
  (x y z : searchQueryElement) :
  queries q !! i = Some x -> queries q !! j = Some y ->
  queries q !! k = Some z ->
  Less q i i = Some false
  /\ (Less q i j = Some true -> Less q j k = Some true -> Less q i k = Some true)
  /\ (Less q i j = Some true -> Less q j i = Some false)
  /\ (Less q i j = Some false -> Less q j i = Some false -> Name x = Name y).
Proof.
  intros Hi Hj Hk. unfold Less. rewrite Hi, Hj, Hk.
  split; [now rewrite ltb_irrefl|]. split; [|split].
  - intros [= H1] [= H2]. now rewrite (ltb_trans _ _ _ H1 H2).
  - intros [= H1]. f_equal. apply ltb_leb in H1.
    unfold String.ltb, String.leb in *.
    rewrite (String.compare_antisym (Name y) (Name x)).
    destruct (String.compare (Name x) (Name y)); try reflexivity; discriminate.
  - intros [= H1] [= H2]. apply String.leb_antisym; now apply ltb_false_leb.
Qed.

Lemma Less_strict_order_witness :
  Less {| queries := [{| Name := "limit"; Value := "1" |};
                      {| Name := "ll"; Value := "0,0" |};
                      {| Name := "term"; Value := "bar" |}]; mask := 0 |} 0 2
  = Some true.
Proof.
  destruct (Less_strict_order
              {| queries := [{| Name := "limit"; Value := "1" |};
                             {| Name := "ll"; Value := "0,0" |};
                             {| Name := "term"; Value := "bar" |}];
                 mask := 0 |} 0 1 2 _ _ _ eq_refl eq_refl eq_refl)
    as (_ & Htrans & _).
  apply Htrans; reflexivity.
Defined.

(** ** Search options *)

Ltac unfold_methods :=
  unfold Query, SearchCoordinates_Query, SearchLocation_Query,
    SearchLocationCoordinates_Query, SearchBounds_Query, SearchTerms_Query,
    SearchLimit_Query, SearchOffset_Query, SearchSort_Query,
    SearchCategories_Query, SearchRadius_Query, SearchDeals_Query in *.

(** Turn the guards of the methods into arithmetic. *)
Ltac guards :=
  repeat match goal with
         | H : _ || _ = false |- _ => apply orb_false_elim in H as [? ?]
         | H : (_ <? _) = false |- _ => apply Z.ltb_ge in H
         | H : (_ >? _) = false |- _ => rewrite Z.gtb_ltb in H; apply Z.ltb_ge in H
         | H : (_ >=? _) = false |- _ => rewrite Z.geb_leb in H; apply Z.leb_gt in H
         | H : Bool.eqb ?b false = false |- _ =>
             destruct b eqn:?; [clear H | discriminate H]
         end.

Ltac accepted :=
  first [ reflexivity | assumption
        | apply Z.leb_le; lia
        | apply andb_true_intro; split; apply Z.leb_le; lia ].

Lemma known_category_guard (v : Z) :
  (v <? SearchCategoryActive) || (v >=? SearchCategoryTotal)
  = negb (known_category v).
Proof.
  unfold known_category, SearchCategoryActive, SearchCategoryTotal.
  destruct (Z.ltb_spec v 0), (Z.leb_spec 0 v), (Z.geb_spec v 8),
    (Z.ltb_spec v 8); try lia; reflexivity.
Qed.

(** The loop over the categories writes the short names with commas in
    between, or stops at a code outside the enumeration. *)
Lemma SearchCategories_loop_spec (sc : list Z) :
  sc <> [] ->
  forall i buffer,
    SearchCategories_loop sc i buffer
    = if forallb known_category sc
      then inr (buffer ++ (if (i =? 0)%nat then "" else ",")
                ++ Join (map category_name sc) ",")%string
      else inl {| Source := "SearchCategory";
                  Message := "Invalid search category specified" |}.
Proof.
  induction sc as [|v sc IH]; [easy|]. intros _ i buffer.
  cbn [SearchCategories_loop forallb map]. rewrite known_category_guard.
  destruct (known_category v); cbn [negb andb]; [|reflexivity].
  unfold WriteString. fold (category_name v).
  destruct sc as [|w sc].
  - cbn [SearchCategories_loop forallb map]. unfold Join. cbn [String.concat].
    destruct (i =? 0)%nat; cbn [negb]; now rewrite ?append_assoc.
  - rewrite IH by easy. destruct (forallb known_category (w :: sc)); [|reflexivity].
    f_equal. unfold Join. cbn [map Nat.eqb].
    change (String.concat "," (?a :: ?b :: ?r))
      with (a ++ "," ++ String.concat "," (b :: r))%string.
    destruct (i =? 0)%nat; cbn [negb]; now rewrite ?append_assoc.
Qed.

(** X11: what [SearchCategories.Query] does, case by case: a set flag is a
    duplicate; an empty list is refused; a list of known codes appends
    [category_filter] with the short names joined by commas and sets the
    flag; a list with a code outside the enumeration is refused, whatever
    stands before or after that code, and nothing is appended. *)
Theorem SearchCategories_Query_cases (sc : list Z) (sq : SearchQuery) :
  SearchCategories_Query sc sq
  = if mask_set sq searchBitMaskCategory then
      (sq, Some {| Source := "SearchCategories";
                   Message := "Attempting to set the category filter a second time" |})
    else match sc with
         | [] => (sq, Some {| Source := "SearchCategories";
                              Message := "No search categories are specified" |})
         | _ :: _ =>
             if forallb known_category sc then
               (set_mask (Append sq "category_filter"
                            (Join (map category_name sc) ","))
                  searchBitMaskCategory, None)
             else
               (sq, Some {| Source := "SearchCategory";
                            Message := "Invalid search category specified" |})
         end.
Proof.
  unfold SearchCategories_Query.
  destruct (mask_set sq searchBitMaskCategory); [reflexivity|].
  destruct sc as [|v sc]; [reflexivity|].
  cbn [length Nat.eqb]. rewrite SearchCategories_loop_spec by easy.
  now destruct (forallb known_category (v :: sc)).
Qed.

Section OptionFacts.
Context `{FloatFormat}.

(** What an accepted option found and what it left. *)
Lemma Query_success (o : SearchQuerier) (sq : SearchQuery)
  (o' : SearchQuerier) (sq' : SearchQuery) :
  Query o sq = (o', sq', None) ->
  mask_set sq (flag (category o)) = false
  /\ validPayload o = true
  /\ exists new,
       queries sq' = queries sq ++ new
       /\ map Name new = wire_keys o
       /\ mask sq' = Z.lor (mask sq) (flag (category o)).
Proof.
  intros HQ.
  destruct (mask_set sq (flag (category o))) eqn:Hm.
  { destruct (Query_duplicate o sq Hm) as (e & HQ' & _).
    rewrite HQ in HQ'. discriminate HQ'. }
  split; [reflexivity|].
  destruct o; cbn [category flag validPayload wire_keys] in *; unfold_methods;
    rewrite Hm in HQ; unfold set_mask, Append in HQ; cbn [queries mask] in HQ.
  - repeat case_match; simplify_eq; guards. split; [accepted|].
    eexists [_]. repeat split.
  - simplify_eq. split; [reflexivity|]. eexists [_]. repeat split.
  - repeat case_match; simplify_eq; guards. split; [accepted|].
    eexists [_; _]. cbn [queries mask]. rewrite <- app_assoc. repeat split.
  - repeat case_match; simplify_eq; guards. split; [accepted|].
    eexists [_]. repeat split.
  - simplify_eq. split; [reflexivity|]. eexists [_]. repeat split.
  - repeat case_match; simplify_eq; guards.
    split; [accepted|].
    eexists [_]. repeat split.
  - repeat case_match; simplify_eq; guards. split; [accepted|].
    eexists [_]. repeat split.
  - unfold SearchSortBestMatched, SearchSortHighestRated in HQ.
    repeat case_match; simplify_eq; guards.
    split; [accepted|].
    eexists [_]. repeat split.
  - destruct sc as [|v sc]; [discriminate HQ|]. cbn [length Nat.eqb] in HQ.
    rewrite SearchCategories_loop_spec in HQ by easy.
    destruct (forallb known_category (v :: sc)) eqn:Hk; [|discriminate HQ].
    simplify_eq. split; [exact Hk|]. eexists [_]. repeat split.
  - repeat case_match; simplify_eq; guards.
    split; [accepted|].
    eexists [_]. repeat split.
  - destruct sd; simplify_eq; (split; [reflexivity|]); eexists [_]; repeat split.
Qed.

(** X12: an option is accepted exactly when its category flag is clear and
    its payload passes its checks; it then appends its wire keys in order
    after the elements already there, and sets its flag and no other. *)
Theorem Query_accepts_iff (o : SearchQuerier) (sq : SearchQuery) :
  ((exists o' sq', Query o sq = (o', sq', None))
   <-> mask_set sq (flag (category o)) = false /\ validPayload o = true)
  /\ forall o' sq', Query o sq = (o', sq', None) ->
       exists new,
         queries sq' = queries sq ++ new
         /\ map Name new = wire_keys o
         /\ mask sq' = Z.lor (mask sq) (flag (category o)).
Proof.
  split.
  - split.
    + intros (o' & sq' & HQ). destruct (Query_success _ _ _ _ HQ) as (? & ? & _).
      now split.
    + intros [Hm Hv]. destruct (Query_valid o sq Hm Hv) as (o' & new & HQ & _).
      eexists _, _. exact HQ.
  - intros o' sq' HQ. now destruct (Query_success _ _ _ _ HQ) as (_ & _ & ?).
Qed.

Lemma land_lor_absorb (a b : Z) : Z.land a (Z.lor a b) = a.
Proof.
  apply Z.bits_inj'. intros n _. rewrite Z.land_spec, Z.lor_spec.
  now destruct (Z.testbit a n), (Z.testbit b n).
Qed.

(** X13: no call of [Query], accepted or refused, removes or reorders an
    element or clears a flag: the elements before the call are a prefix of
    the elements after it, and every flag set before is set after. *)
Theorem Query_never_removes (o : SearchQuerier) (sq : SearchQuery) :
  queries sq `prefix_of` queries (snd (fst (Query o sq)))
  /\ Z.land (mask sq) (mask (snd (fst (Query o sq)))) = mask sq.
Proof.
  destruct (Query o sq) as [[o' sq'] [e|]] eqn:HQ; cbn [fst snd].
  - destruct (Query_failure _ _ _ _ _ HQ) as (_ & Hm & [->|Hh]).
    + split; [reflexivity | now rewrite Z.land_diag].
    + destruct Hh as (l & lat & lon & _ & _ & _ & ->).
      split; [now apply prefix_app_r | cbn [Append mask]; now rewrite Z.land_diag].
  - destruct (Query_success _ _ _ _ HQ) as (_ & _ & new & -> & _ & ->).
    split; [now apply prefix_app_r | apply land_lor_absorb].
Qed.
End OptionFacts.

Lemma Query_accepts_iff_witness :
  exists new,
    queries (snd (fst (Query (SearchLocationCoordinates "Den Haag" 1 0) fresh)))
    = queries fresh ++ new
    /\ map Name new = ["location"; "cll"]
    /\ mask (snd (fst (Query (SearchLocationCoordinates "Den Haag" 1 0) fresh)))
       = Z.lor (mask fresh) searchBitMaskLocation.
Proof.
  apply (proj2 (Query_accepts_iff (SearchLocationCoordinates "Den Haag" 1 0) fresh)
               (SearchLocationCoordinates "Den Haag" 1 0)).
  reflexivity.
Defined.

(** *** Spaces *)

Lemma Replace_space_plus_not_space (s : string) :
  all_bytes not_space (Replace_space_plus s) = true.
Proof.
  induction s as [|c s IH]; [reflexivity|].
  cbn [Replace_space_plus all_bytes]. rewrite IH, andb_true_r.
  unfold not_space. destruct (Ascii.eqb c " ") eqn:Hc; [reflexivity|].
  now rewrite Hc.
Qed.

Lemma Replace_space_plus_length (s : string) :
  String.length (Replace_space_plus s) = String.length s.
Proof. induction s as [|c s IH]; cbn; [reflexivity | now rewrite IH]. Qed.

Lemma Join_all_bytes (p : ascii -> bool) (l : list string) (sep : string) :
  all_bytes p sep = true -> Forall (fun x => all_bytes p x = true) l ->
  all_bytes p (Join l sep) = true.
Proof.
  intros Hsep. unfold Join. induction 1 as [|x l Hx _ IH]; [reflexivity|].
  destruct l as [|y l]; [exact Hx|].
  change (String.concat sep (x :: y :: l))
    with (x ++ sep ++ String.concat sep (y :: l))%string.
  now rewrite !all_bytes_append, Hx, Hsep, IH.
Qed.

Lemma Replace_space_plus_spec (s : string) :
  spaces_replaced s (Replace_space_plus s).
Proof.
  split; [apply Replace_space_plus_length|].
  induction s as [|x s IH]; intros i c; [discriminate|].
  destruct i as [|i]; cbn [Replace_space_plus String.get].
  - intros [= ->]. split.
    + intros ->. reflexivity.
    + intros Hc. apply Ascii.eqb_neq in Hc. now rewrite Hc.
  - apply IH.
Qed.

(** X14: an accepted [Location] writes the location with every space
    replaced by a plus and every other byte kept, so that the written value
    has the length of the location and no space in it. An accepted [Terms]
    rewrites each of its terms in that way and writes the rewritten terms
    with commas between them, a value without a space as well. *)
Theorem values_without_space (sq : SearchQuery) :
  (forall sl, mask_set sq searchBitMaskLocation = false ->
     exists v, SearchLocation_Query sl sq
               = (set_mask (Append sq "location" v) searchBitMaskLocation, None)
               /\ spaces_replaced sl v
               /\ all_bytes not_space v = true
               /\ String.length v = String.length sl)
  /\ (forall st, mask_set sq searchBitMaskTerm = false ->
        exists vs, SearchTerms_Query st sq
                   = (vs,
                      set_mask (Append sq "term" (String.concat "," vs))
                        searchBitMaskTerm,
                      None)
                   /\ Forall2 spaces_replaced st vs
                   /\ all_bytes not_space (String.concat "," vs) = true).
Proof.
  split.
  - intros sl Hm. unfold SearchLocation_Query. rewrite Hm.
    eexists. split; [reflexivity|]. split; [apply Replace_space_plus_spec|].
    split; [apply Replace_space_plus_not_space | apply Replace_space_plus_length].
  - intros st Hm. unfold SearchTerms_Query. rewrite Hm.
    rewrite SearchTerms_loop_spec. eexists. split; [reflexivity|]. split.
    + induction st as [|t st IH]; cbn [map]; constructor;
        [apply Replace_space_plus_spec | exact IH].
    + apply (Join_all_bytes not_space _ ","); [reflexivity|].
      induction st as [|t st IH]; cbn [map]; constructor;
        [apply Replace_space_plus_not_space | exact IH].
Qed.

Lemma values_without_space_witness :
  exists vs, SearchTerms_Query ["ice cream"; "new york pizza"] fresh
             = (vs,
                set_mask (Append fresh "term" (String.concat "," vs))
                  searchBitMaskTerm,
                None)
             /\ Forall2 spaces_replaced ["ice cream"; "new york pizza"] vs
             /\ all_bytes not_space (String.concat "," vs) = true.
Proof.
  apply (proj2 (values_without_space fresh) ["ice cream"; "new york pizza"]).
  reflexivity.
Defined.

(** ** The client *)

Local Open Scope string_scope.
Local Open Scope Z_scope.

Lemma get_append_here (a : string) (c : ascii) (s : string) :
  String.get (String.length a) (a ++ String c s) = Some c.
Proof. induction a as [|x a IH]; [reflexivity | exact IH]. Qed.

Lemma get_append_end (a : string) : String.get (String.length a) a = None.
Proof. induction a as [|x a IH]; [reflexivity | exact IH]. Qed.

Lemma append_cons_shift (a : string) (c : ascii) (s : string) :
  a ++ String c s = (a ++ String c "") ++ s.
Proof. now rewrite append_assoc. Qed.

Lemma length_snoc (a : string) (c : ascii) :
  String.length (a ++ String c "") = S (String.length a).
Proof. rewrite length_append. cbn. lia. Qed.

Lemma substring_append (a t r : string) :
  String.substring (String.length a) (String.length t) (a ++ t ++ r) = t.
Proof.
  induction a as [|x a IH]; cbn [String.length append]; [|exact IH].
  induction t as [|y t IHt]; cbn [String.length append String.substring].
  - now destruct r.
  - now rewrite IHt.
Qed.

(** The inner loop walks over quote-free text up to the next quote. *)
Lemma find_closing_Some (t : string) :
  quote_free t = true ->
  forall a rest n, (String.length t < n)%nat ->
    find_closing (a ++ t ++ String quote rest) (String.length a) n
    = Some (String.length a + String.length t)%nat.
Proof.
  induction t as [|c t IH]; intros Ht a rest n Hn.
  - destruct n as [|n]; [cbn in Hn; lia|]. cbn [append find_closing].
    rewrite get_append_here. cbn. f_equal. lia.
  - cbn in Ht. apply andb_prop in Ht as [Hc Ht]. apply negb_true_iff in Hc.
    destruct n as [|n]; [cbn in Hn; lia|]. cbn [append find_closing].
    rewrite get_append_here, Hc. rewrite (append_cons_shift a c), <- (length_snoc a c).
    rewrite IH by (assumption || (cbn in Hn; lia)).
    rewrite length_snoc. f_equal. cbn. lia.
Qed.

Lemma find_closing_None (t : string) :
  quote_free t = true ->
  forall a n, find_closing (a ++ t) (String.length a) n = None.
Proof.
  induction t as [|c t IH]; intros Ht a n.
  - rewrite append_nil_r. destruct n; cbn [find_closing]; [reflexivity|].
    now rewrite get_append_end.
  - cbn in Ht. apply andb_prop in Ht as [Hc Ht]. apply negb_true_iff in Hc.
    destruct n as [|n]; [reflexivity|]. cbn [find_closing].
    rewrite get_append_here, Hc. rewrite (append_cons_shift a c), <- (length_snoc a c).
    now apply IH.
Qed.

(** The outer loop walks over quote-free text up to the first quote. *)
Lemma scan_prefix (pre : string) :
  quote_free pre = true ->
  forall a r n, (String.length pre < n)%nat ->
    scan (a ++ pre ++ String quote r) (String.length a) n
    = match find_closing (a ++ pre ++ String quote r)
              (S (String.length a + String.length pre))
              (String.length (a ++ pre ++ String quote r)
               - S (String.length a + String.length pre)) with
      | Some iEnd =>
          Found (String.substring (S (String.length a + String.length pre))
                   (iEnd - S (String.length a + String.length pre))
                   (a ++ pre ++ String quote r))
      | None => NoClosing
      end.
Proof.
  induction pre as [|c pre IH]; intros Hp a r n Hn.
  - destruct n as [|n]; [cbn in Hn; lia|]. cbn [append scan String.length].
    rewrite get_append_here. cbn [Ascii.eqb quote]. rewrite Nat.add_0_r.
    reflexivity.
  - cbn in Hp. apply andb_prop in Hp as [Hc Hp]. apply negb_true_iff in Hc.
    destruct n as [|n]; [cbn in Hn; lia|]. cbn [append scan].
    rewrite get_append_here, Hc. rewrite (append_cons_shift a c), <- (length_snoc a c).
    rewrite IH by (assumption || (cbn in Hn; lia)).
    rewrite length_snoc. cbn [String.length].
    now replace (S (String.length a) + String.length pre)%nat
      with (String.length a + S (String.length pre))%nat by lia.
Qed.

Lemma scan_no_quote (pre : string) :
  quote_free pre = true ->
  forall a n, scan (a ++ pre) (String.length a) n = NoOpening.
Proof.
  induction pre as [|c pre IH]; intros Hp a n.
  - rewrite append_nil_r. destruct n; cbn [scan]; [reflexivity|].
    now rewrite get_append_end.
  - cbn in Hp. apply andb_prop in Hp as [Hc Hp]. apply negb_true_iff in Hc.
    destruct n as [|n]; [reflexivity|]. cbn [scan].
    rewrite get_append_here, Hc. rewrite (append_cons_shift a c), <- (length_snoc a c).
    now apply IH.
Qed.

(** What the scan finds on each of the three shapes a response can have. *)
Lemma scan_shapes (pre text rest : string) :
  quote_free pre = true -> quote_free text = true ->
  scan pre 0 (String.length pre) = NoOpening
  /\ scan (pre ++ String quote text) 0
       (String.length (pre ++ String quote text)) = NoClosing
  /\ scan (pre ++ String quote (text ++ String quote rest)) 0
       (String.length (pre ++ String quote (text ++ String quote rest)))
     = Found text.
Proof.
  intros Hp Ht. split; [|split].
  - apply (scan_no_quote pre Hp "").
  - rewrite (scan_prefix pre Hp "" text) by (rewrite length_append; cbn; lia).
    cbn [append String.length Nat.add].
    rewrite (append_cons_shift pre quote text), <- (length_snoc pre quote).
    now rewrite find_closing_None.
  - rewrite (scan_prefix pre Hp "" (text ++ String quote rest))
      by (rewrite length_append; cbn; lia).
    cbn [append String.length Nat.add].
    rewrite (append_cons_shift pre quote (text ++ String quote rest)),
      <- (length_snoc pre quote).
    rewrite find_closing_Some
      by (assumption || (rewrite !length_append; cbn; lia)).
    f_equal.
    replace (String.length (pre ++ String quote "") + String.length text
             - String.length (pre ++ String quote ""))%nat
      with (String.length text) by lia.
    apply substring_append.
Qed.

Section ClientFacts.
Context `{Library}.

(** X15: a response without a double quote, or with a single one, is
    refused with the error that says which quote is missing, and the JSON
    decoder is not consulted. *)
Theorem validateResponse_malformed (pre text : string) :
  quote_free pre = true -> quote_free text = true ->
  validateResponse pre
  = (None, Some (Error_value
       {| Source := "Client";
          Message := "Could not find an opening '" ++ String quote
                     "' bracket while search for the first JSON entry" |}))
  /\ validateResponse (pre ++ String quote text)
     = (None, Some (Error_value
          {| Source := "Client";
             Message := "Could not find a matching closing '" ++ String quote
                        "' bracket while searching for the first JSON entry" |})).
Proof.
  intros Hp Ht. destruct (scan_shapes pre text "" Hp Ht) as (H1 & H2 & _).
  unfold validateResponse. now rewrite H1, H2.
Qed.

(** X16: the first quoted token decides: when it is [error] the call
    never returns businesses, whatever the decoder makes of the response;
    otherwise the result is what decoding the whole response into the
    businesses gives, value and error both. *)
Theorem validateResponse_first_token (pre text rest : string) :
  quote_free pre = true -> quote_free text = true ->
  let response := pre ++ String quote (text ++ String quote rest) in
  (text = "error" ->
   fst (validateResponse response) = None
   /\ snd (validateResponse response) <> None)
  /\ (text <> "error" ->
      validateResponse response
      = (Some (fst (Unmarshal_businesses response)),
         option_map Library_error (snd (Unmarshal_businesses response)))).
Proof.
  intros Hp Ht response.
  destruct (scan_shapes pre text rest Hp Ht) as (_ & _ & H3).
  unfold validateResponse. fold response in H3. rewrite H3. split.
  - intros ->. cbn [String.eqb Ascii.eqb Bool.eqb].
    destruct (Unmarshal_error response) as [y [e|]]; now split.
  - intros Hne. apply String.eqb_neq in Hne. rewrite Hne.
    now destruct (Unmarshal_businesses response).
Qed.

Lemma validateResponse_never_empty (response : string) :
  validateResponse response <> (None, None).
Proof.
  unfold validateResponse. destruct (scan _ _ _); try discriminate.
  destruct (String.eqb text "error").
  - destruct (Unmarshal_error response) as [y [e|]]; discriminate.
  - destruct (Unmarshal_businesses response); discriminate.
Qed.

Context `{Crypto} `{RandSource} `{SortRoutine}.

(** X17: [Client.SearchQuery] signs, and requests the URL, a question mark
    and the serialized signed container. When the request yields no
    response the call panics and returns nothing, the error that came with
    the missing response included. With a response it returns either
    businesses or an error, never both and never neither. *)
Theorem Client_SearchQuery_outcomes (c : Client) (q : SearchQuery) (now : Z)
  (rs : Rand) :
  exists qp rs',
    Sign (signer c) "GET" (url c) q now rs = Some (qp, rs')
    /\ snd (Client_SearchQuery c q now rs) = rs'
    /\ let request := url c ++ "?" ++ SearchQuery_String qp in
       (fst (http_Get request) = None ->
        fst (Client_SearchQuery c q now rs) = Panic)
       /\ (fst (http_Get request) <> None ->
           (exists b, fst (Client_SearchQuery c q now rs) = Return (Some b) None)
           \/ (exists e, fst (Client_SearchQuery c q now rs)
                         = Return None (Some e))).
Proof.
  unfold Client_SearchQuery.
  assert (exists r, Sign (signer c) "GET" (url c) q now rs = Some r) as [[qp rs'] HS].
  { unfold Sign. destruct (nonce 30 rs) as [n rs1].
    match goal with
    | |- context [Sort ?x] =>
        destruct (Sort_append_five (queries x) (mask x)) as (s & Hs & _)
    end.
    unfold Append in *. cbn [queries mask] in *. rewrite Hs. eauto. }
  rewrite HS. exists qp, rs'. split; [reflexivity|].
  unfold Join. cbn [String.concat].
  destruct (http_Get (url c ++ "?" ++ SearchQuery_String qp)) as [[data|] err];
    cbn [fst snd]; (split; [|split]); try reflexivity; try easy.
  - destruct err; [reflexivity|]. destruct (ReadAll_Body data) as [body [e|]];
      [reflexivity|]. now destruct (validateResponse body) as [b [e|]].
  - intros _. destruct err as [e|]; [right; eauto|].
    destruct (ReadAll_Body data) as [body [e|]]; [right; eauto|].
    destruct (validateResponse body) as [[b|] [e|]] eqn:Hv; cbn [fst];
      [right; eauto | left; eauto | right; eauto |].
    now apply validateResponse_never_empty in Hv.
Qed.

Context `{FloatFormat}.

Lemma mask_set_lor (q q1 : SearchQuery) (c c' : Category) :
  mask q1 = Z.lor (mask q) (flag c) ->
  mask_set q1 (flag c') = mask_set q (flag c') || bool_decide (c = c').
Proof.
  intros Hm. unfold mask_set. rewrite Hm, Z.land_lor_distr_l.
  pose proof (flag_disjoint c c') as Hf.
  destruct (Z.eqb_spec (Z.land (mask q) (flag c')) 0) as [E|E];
    destruct (Z.eqb_spec (Z.lor (Z.land (mask q) (flag c'))
                                (Z.land (flag c) (flag c'))) 0) as [E'|E'];
    cbn [negb orb].
  - apply Z.lor_eq_0_iff in E' as [_ E']. rewrite E' in Hf.
    cbn in Hf. now destruct (bool_decide (c = c')).
  - rewrite E, Z.lor_0_l in E'. apply Z.eqb_neq in E'. rewrite E' in Hf.
    now destruct (bool_decide (c = c')).
  - apply Z.lor_eq_0_iff in E' as [E' _]. contradiction.
  - reflexivity.
Qed.

Lemma wire_keys_category (o o' : SearchQuerier) (k : string) :
  k ∈ wire_keys o -> k ∈ wire_keys o' -> category o = category o'.
Proof.
  destruct o, o'; cbn [wire_keys category]; try reflexivity;
    rewrite ?elem_of_cons, ?elem_of_nil; intros Hk Hk';
    exfalso; intuition (subst; discriminate).
Qed.

Lemma wire_keys_NoDup (o : SearchQuerier) : NoDup (wire_keys o).
Proof.
  destruct o; cbn [wire_keys]; repeat constructor;
    rewrite ?elem_of_cons, ?elem_of_nil; intuition discriminate.
Qed.

Lemma elem_of_concat {A} (x : A) (ls : list (list A)) :
  x ∈ concat ls -> exists l, x ∈ l /\ l ∈ ls.
Proof.
  induction ls as [|l ls IH]; cbn [concat]; [now intros ?%elem_of_nil|].
  intros [Hx|Hx]%elem_of_app.
  - exists l. split; [exact Hx | left].
  - destruct (IH Hx) as (l' & ? & ?). exists l'. split; [assumption | now right].
Qed.

Lemma keys_NoDup (options : list SearchQuerier) :
  NoDup (category <$> options) -> NoDup (concat (wire_keys <$> options)).
Proof.
  induction options as [|o options IH]; cbn; [constructor|].
  intros [Hc Hn]%NoDup_cons. apply NoDup_app. split; [apply wire_keys_NoDup|].
  split; [|now apply IH].
  intros k Hk (ks & Hin & Hks)%elem_of_concat.
  apply list_elem_of_fmap in Hks as (o' & -> & Ho').
  apply Hc. rewrite (wire_keys_category o o' k Hk Hin).
  apply list_elem_of_fmap. eauto.
Qed.

(** The loop from a container [qp] that accepted every option. *)
Lemma SearchOptions_loop_inl (options : list SearchQuerier) :
  forall qp qp',
    SearchOptions_loop options qp = inl qp' ->
    Forall (fun o => validPayload o = true
                     /\ mask_set qp (flag (category o)) = false) options
    /\ NoDup (category <$> options)
    /\ (exists news, queries qp' = (queries qp ++ news)%list
                     /\ Name <$> news = concat (wire_keys <$> options))
    /\ forall c, mask_set qp' (flag c)
                 = mask_set qp (flag c)
                   || bool_decide (c ∈ category <$> options).
Proof.
  induction options as [|v options IH]; intros qp qp'; cbn [SearchOptions_loop].
  - intros [= <-]. split; [constructor|]. split; [constructor|].
    split; [exists []; now rewrite app_nil_r|].
    intros c. now rewrite orb_false_r.
  - destruct (Query v qp) as [[o1 qp1] [e|]] eqn:HQ; [discriminate|].
    intros Hl. destruct (Query_success _ _ _ _ HQ) as (Hm & Hv & new & Hq & Hk & Hmask).
    destruct (IH _ _ Hl) as (Hall & Hnd & (news & Hq' & Hk') & Hflags).
    assert (Hstep : forall c, mask_set qp1 (flag c)
                              = mask_set qp (flag c) || bool_decide (category v = c)).
    { intros c. now apply mask_set_lor. }
    split; [|split; [|split]].
    + constructor; [now split|].
      eapply Forall_impl; [exact Hall|]. intros o [Ho1 Ho2].
      rewrite Hstep in Ho2. apply orb_false_elim in Ho2 as [Ho2 _]. now split.
    + cbn [fmap list_fmap]. apply NoDup_cons. split; [|exact Hnd].
      intros (o & Ho & Hin)%list_elem_of_fmap.
      apply (proj1 (Forall_forall _ _) Hall) in Hin as [_ Hin].
      rewrite Hstep, Ho in Hin. rewrite bool_decide_eq_true_2 in Hin by reflexivity.
      now rewrite orb_true_r in Hin.
    + exists (new ++ news)%list. split.
      * now rewrite Hq', Hq, <- app_assoc.
      * cbn [fmap list_fmap concat]. rewrite fmap_app.
        change (Name <$> new) with (map Name new). now rewrite Hk, Hk'.
    + intros c. rewrite Hflags, Hstep, fmap_cons.
      rewrite <- orb_assoc. f_equal.
      destruct (decide (category v = c)) as [E|Hne].
      * rewrite (bool_decide_eq_true_2 _ E). cbn [orb]. symmetry.
        apply bool_decide_eq_true_2. rewrite <- E. left.
      * rewrite (bool_decide_eq_false_2 (category v = c)) by assumption.
        cbn [orb]. apply bool_decide_ext. rewrite elem_of_cons.
        split; [tauto | intros [E|E]; [congruence | exact E]].
Qed.

Lemma SearchOptions_loop_accepts (options : list SearchQuerier) :
  forall qp,
    Forall (fun o => validPayload o = true
                     /\ mask_set qp (flag (category o)) = false) options ->
    NoDup (category <$> options) ->
    exists qp', SearchOptions_loop options qp = inl qp'.
Proof.
  induction options as [|v options IH]; intros qp Hall Hnd;
    cbn [SearchOptions_loop]; [eauto|].
  apply Forall_cons in Hall as [[Hv Hm] Hall].
  cbn [fmap list_fmap] in Hnd. apply NoDup_cons in Hnd as [Hnotin Hnd].
  destruct (Query_valid v qp Hm Hv) as (o' & new & HQ & _). rewrite HQ.
  apply IH; [|exact Hnd].
  apply Forall_forall. intros o Ho.
  apply (proj1 (Forall_forall _ _) Hall) in Ho as Hvo. destruct Hvo as [Hvo Hmo].
  split; [exact Hvo|].
  rewrite (mask_set_lor qp _ (category v) (category o)) by reflexivity.
  rewrite Hmo. cbn [orb]. apply bool_decide_eq_false_2. intros E.
  apply Hnotin. rewrite E. apply list_elem_of_fmap. eauto.
Qed.

(** X18: the options of [SearchOptions] are all accepted exactly when each
    payload passes its checks and no two options share a category; the
    container then holds the wire keys of the options in the order given,
    no key twice, and has the flags of exactly their categories set. *)
Theorem SearchOptions_loop_iff (options : list SearchQuerier) :
  ((exists qp, SearchOptions_loop options fresh = inl qp)
   <-> Forall (fun o => validPayload o = true) options
       /\ NoDup (category <$> options))
  /\ forall qp, SearchOptions_loop options fresh = inl qp ->
       Name <$> queries qp = concat (wire_keys <$> options)
       /\ NoDup (Name <$> queries qp)
       /\ forall c, mask_set qp (flag c)
                    = bool_decide (c ∈ category <$> options).
Proof.
  split; [split|].
  - intros [qp Hl].
    destruct (SearchOptions_loop_inl _ _ _ Hl) as (Hall & Hnd & _).
    split; [|exact Hnd]. eapply Forall_impl; [exact Hall|]. now intros o [? _].
  - intros [Hall Hnd]. apply SearchOptions_loop_accepts; [|exact Hnd].
    eapply Forall_impl; [exact Hall|]. intros o Ho. split; [exact Ho|].
    apply mask_set_fresh.
  - intros qp Hl.
    destruct (SearchOptions_loop_inl _ _ _ Hl) as (_ & Hnd & (news & Hq & Hk) & Hf).
    cbn [fresh queries app] in Hq. rewrite Hq, Hk.
    split; [reflexivity|]. split; [now apply keys_NoDup|].
    intros c. now rewrite Hf, mask_set_fresh.
Qed.

End ClientFacts.

Lemma validateResponse_malformed_witness :
  quote_free "[1, 2]" = true
  /\ quote_free "error: 1" = true
  /\ fst (@validateResponse example_library ("[1, 2]" ++ String quote "error: 1"))
     = None.
Proof.
  split; [reflexivity|]. split; [reflexivity|].
  destruct (@validateResponse_malformed example_library "[1, 2]" "error: 1"
              eq_refl eq_refl) as [_ E].
  now rewrite E.
Defined.

Lemma validateResponse_first_token_witness :
  fst (@validateResponse example_library
         ("{" ++ String quote ("error" ++ String quote ": {}}")))
  = None.
Proof.
  destruct (@validateResponse_first_token example_library "{" "error" ": {}}"
              eq_refl eq_refl) as [E _].
  exact (proj1 (E eq_refl)).
Defined.

Lemma Client_SearchQuery_outcomes_witness :
  fst (@Client_SearchQuery failing_library example_crypto example_rand
         insertion_sort
         (New "http://api.yelp.com/v2/search" "ck" "cs" "tk" "ts") fresh 0 0%N)
  = Panic.
Proof.
  destruct (@Client_SearchQuery_outcomes failing_library example_crypto
              example_rand insertion_sort
              (New "http://api.yelp.com/v2/search" "ck" "cs" "tk" "ts")
              fresh 0 0%N)
    as (qp & rs' & _ & _ & Hp & _).
  apply Hp. reflexivity.
Defined.

Lemma SearchOptions_loop_iff_witness :
  exists qp,
    @SearchOptions_loop example_format
      [SearchLocation "Delft"; SearchLimit 5; SearchDeals true] fresh = inl qp.
Proof.
  apply (proj2 (proj1 (@SearchOptions_loop_iff example_format
           [SearchLocation "Delft"; SearchLimit 5; SearchDeals true]))).
  split; [repeat constructor|].
  cbn [fmap list_fmap category].
  repeat (apply NoDup_cons_2;
          [rewrite ?elem_of_cons, elem_of_nil; intuition discriminate|]).
  apply NoDup_nil_2.
Defined.


(** ** The hash key *)

Lemma separator_split (x x' y y' : string) :
  all_bytes url_safe x = true -> all_bytes url_safe x' = true ->
  (x ++ String "&" y = x' ++ String "&" y')%string -> x = x' /\ y = y'.
Proof.
  revert x'. induction x as [|c x IH]; intros [|c' x']; cbn [append all_bytes].
  - intros _ _ [= ->]. now split.
  - intros _ [Hc _]%andb_prop [= <- _]. discriminate.
  - intros [Hc _]%andb_prop _ [= -> _]. discriminate.
  - intros [_ Hx]%andb_prop [_ Hx']%andb_prop [= -> E].
    destruct (IH x' Hx Hx' E) as [-> ->]. now split.
Qed.

Lemma comma_free_append (a b : string) :
  comma_free (a ++ b) = comma_free a && comma_free b.
Proof.
  induction a as [|c a IH]; cbn [append comma_free]; [reflexivity|].
  now rewrite IH, andb_assoc.
Qed.

Lemma percentEncode_ascii_injective (a b : string) :
  is_ascii a = true -> comma_free a = true ->
  is_ascii b = true -> comma_free b = true ->
  percentEncode a = percentEncode b -> a = b.
Proof.
  intros Ha Hca Hb Hcb E.
  rewrite (percentEncode_ascii a Ha), (percentEncode_ascii b Hb) in E.
  rewrite <- (percentDecode_encode a Hca), E. now apply percentDecode_encode.
Qed.

(** X20: [SetHashKey] leaves the consumer key and the token alone and
    sets the key to the encoded consumer secret, one [&] and the encoded
    token secret. The encoded secrets hold no [&], so two keys are equal
    exactly when both encoded secrets are; for secrets of bytes below 0x80
    without a comma, equal keys mean equal secrets. *)
Theorem SetHashKey_separates (yoa yoa' : oauth) (cs ts cs' ts' : string) :
  hashKey (SetHashKey yoa cs ts)
  = (percentEncode cs ++ String "&" (percentEncode ts))%string
  /\ ConsumerKey (SetHashKey yoa cs ts) = ConsumerKey yoa
  /\ Token (SetHashKey yoa cs ts) = Token yoa
  /\ (hashKey (SetHashKey yoa cs ts) = hashKey (SetHashKey yoa' cs' ts')
      <-> percentEncode cs = percentEncode cs'
          /\ percentEncode ts = percentEncode ts')
  /\ (is_ascii (cs ++ ts ++ cs' ++ ts') = true ->
      comma_free (cs ++ ts ++ cs' ++ ts') = true ->
      hashKey (SetHashKey yoa cs ts) = hashKey (SetHashKey yoa' cs' ts') ->
      cs = cs' /\ ts = ts').
Proof.
  split.
  { unfold SetHashKey, WriteString. cbn [hashKey append].
    now rewrite append_assoc. }
  split; [reflexivity|]. split; [reflexivity|].
  assert (K : hashKey (SetHashKey yoa cs ts) = hashKey (SetHashKey yoa' cs' ts')
              -> percentEncode cs = percentEncode cs'
                 /\ percentEncode ts = percentEncode ts').
  { unfold SetHashKey, WriteString. cbn [hashKey append].
    rewrite ?append_assoc. cbn [append].
    apply separator_split; rewrite percentEncode_runes;
      apply encoded_runes_url_safe. }
  split; [split; [exact K|]|].
  - intros [E1 E2]. unfold SetHashKey, WriteString. cbn [hashKey].
    now rewrite E1, E2.
  - intros Ha Hc [E1 E2]%K.
    rewrite !is_ascii_append in Ha. rewrite !comma_free_append in Hc.
    apply andb_prop in Ha as (A1 & (A2 & (A3 & A4)%andb_prop)%andb_prop).
    apply andb_prop in Hc as (C1 & (C2 & (C3 & C4)%andb_prop)%andb_prop).
    split; now apply percentEncode_ascii_injective.
Qed.
